(** * The log tail engine, the token refresh scheduler and the ccv3 requester
    of the cf CLI: a shallow embedding and the properties checked on it.

    Part I holds the definitions, one module per Go package or component;
    Part II holds the theorems. *)

From Stdlib Require Import ZArith NArith List String Ascii Bool Lia Sorted.
From Stdlib Require Import DecimalString DecimalZ DecimalPos.
Import ListNotations.

Set Warnings "-register-all".

Local Open Scope string_scope.
Local Open Scope list_scope.
Local Open Scope Z_scope.

(* ================================================================== *)
(** * Part I: definitions                                              *)
(* ================================================================== *)

(** ** Go's [int64]: two's complement, wrap-around on overflow *)

Module Int64.

Definition min_int : Z := - 2 ^ 63.
Definition max_int : Z := 2 ^ 63 - 1.

Definition in_range (z : Z) : Prop := min_int <= z <= max_int.

(** The value an [int64] holds after an operation whose exact result is [z]. *)
Definition wrap (z : Z) : Z := (z + 2 ^ 63) mod 2 ^ 64 - 2 ^ 63.

Definition add (a b : Z) : Z := wrap (a + b).
Definition sub (a b : Z) : Z := wrap (a - b).
Definition mul (a b : Z) : Z := wrap (a * b).

(** Go's [/] on integers truncates toward zero. *)
Definition quot (a b : Z) : Z := wrap (Z.quot a b).

(** Clamp to the representable range, as [time.Time.Sub] does. *)
Definition saturate (z : Z) : Z :=
  if z <? min_int then min_int else if max_int <? z then max_int else z.

End Int64.

(** ** Go's [error] values and the strings package *)

Inductive error : Type :=
| Err (msg : string).

Fixpoint strip_prefix (prefix s : string) : option string :=
  match prefix, s with
  | EmptyString, _ => Some s
  | String a p, String b r => if Ascii.eqb a b then strip_prefix p r else None
  | String _ _, EmptyString => None
  end.

(** [strings.TrimPrefix]: [s] without the leading [prefix], or [s] itself. *)
Definition TrimPrefix (s prefix : string) : string :=
  match strip_prefix prefix s with
  | Some r => r
  | None => s
  end.

(** ** actor/v2action: [Actor.ScheduleTokenRefresh] *)

Module TokenRefresh.

(** An instant, in nanoseconds since the Unix epoch. *)
Definition Time : Type := Z.

(** [time.Duration]: an [int64] count of nanoseconds. *)
Definition Duration : Type := Z.

Definition Nanosecond : Duration := 1.
Definition Second : Duration := 1000000000.

(** [t.Sub(u)]: the difference, clamped to the range of [Duration]. *)
Definition Sub (t u : Time) : Duration := Int64.saturate (t - u).

(** [time.Until(t)] with the clock reading [now]. *)
Definition Until (now t : Time) : Duration := Sub t now.

(** What [jws.ParseJWT] yields, as far as the scheduler reads it:
    [token.Claims().Expiration()] is [(exp, true)] or [(_, false)]. *)
Record JWT : Type := {
  Expiration : option Time
}.

(** The collaborators of the actor that [ScheduleTokenRefresh] touches.
    [RefreshAccessToken n] is the outcome of the call number [n] (from 0) of
    [actor.RefreshAccessToken(actor.Config.RefreshToken())]; [Now] is the
    clock read by [time.Until]. *)
Record Actor : Type := {
  RefreshAccessToken : nat -> string + error;
  ParseJWT : string -> JWT + error;
  Now : Time
}.

(** The [tickerChan] argument: [nil], or a channel supplied by the caller. *)
Inductive ticker_chan : Type :=
| NilChan
| SuppliedChan.

(** The tick source the goroutine selects on: the channel of its own
    [time.NewTicker(period)], or the supplied one. *)
Inductive ticker : Type :=
| OwnTicker (period : Duration)
| SuppliedTicker.

(** The goroutine started by [go func() { ... }()].
    [Looping tk n]: blocked in [select], [n] calls of [RefreshAccessToken]
    made so far.  [Returned]: left through [case <-quitNowChannel].
    [Panicked e]: an unrecovered [panic(e)]; in Go this terminates the
    whole process. *)
Inductive goroutine : Type :=
| Looping (tk : ticker) (calls : nat)
| Returned
| Panicked (e : error).

Definition NewTicker_panic : error :=
  Err "non-positive interval for NewTicker".

(** [timeToRefresh = expiresIn * 9 / 10] on [time.Duration]. *)
Definition timeToRefresh (expiresIn : Duration) : Duration :=
  Int64.quot (Int64.mul expiresIn 9) 10.

(** The goroutine up to its first [select]: with a [nil] [tickerChan] it
    creates [time.NewTicker(timeToRefresh)], which panics on a
    non-positive interval. *)
Definition spawn (tickerChan : ticker_chan) (d : Duration) (calls : nat)
  : goroutine :=
  match tickerChan with
  | NilChan =>
      if d <=? 0 then Panicked NewTicker_panic else Looping (OwnTicker d) calls
  | SuppliedChan => Looping SuppliedTicker calls
  end.

(** What one [select] of the loop receives. *)
Inductive event : Type :=
| Tick
| Quit.

(** One iteration of [for { select { ... } }]. *)
Definition step (actor : Actor) (g : goroutine) (ev : event) : goroutine :=
  match g with
  | Looping tk n =>
      match ev with
      | Tick =>
          match RefreshAccessToken actor n with
          | inr err => Panicked err
          | inl _ => Looping tk (S n)
          end
      | Quit => Returned
      end
  | Returned => Returned
  | Panicked e => Panicked e
  end.

Definition run (actor : Actor) (g : goroutine) (evs : list event) : goroutine :=
  fold_left (step actor) evs g.

(** The outcome of a call of [ScheduleTokenRefresh]: the two results
    [(chan bool, error)] ([quit = true] for a non-nil [quitNowChannel]),
    the goroutine it started, if any, and how many times the body called
    [RefreshAccessToken]. *)
Record scheduled : Type := {
  quit : bool;
  err : option error;
  background : option goroutine;
  refreshes : nat
}.

Definition fail_with (e : error) : scheduled :=
  {| quit := false; err := Some e; background := None; refreshes := 1 |}.

Definition no_expiry : error :=
  Err "Failed to get an expiry time from the current access token".

Definition ScheduleTokenRefresh (actor : Actor) (tickerChan : ticker_chan)
  : scheduled :=
  match RefreshAccessToken actor 0 with
  | inr e => fail_with e
  | inl accessTokenString =>
      let accessTokenString := TrimPrefix accessTokenString "bearer " in
      match ParseJWT actor accessTokenString with
      | inr e => fail_with e
      | inl token =>
          match Expiration token with
          | Some expiration =>
              let expiresIn := Until (Now actor) expiration in
              {| quit := true; err := None;
                 background := Some (spawn tickerChan (timeToRefresh expiresIn) 1);
                 refreshes := 1 |}
          | None => fail_with no_expiry
          end
      end
  end.

(** The period of the goroutine's own ticker, when it is looping on one. *)
Definition period_of (g : goroutine) : option Duration :=
  match g with
  | Looping (OwnTicker d) _ => Some d
  | _ => None
  end.

Definition process_terminated (g : goroutine) : bool :=
  match g with
  | Panicked _ => true
  | _ => false
  end.

(** What the specification asks of a tick instead: decode the expiry of the
    freshly refreshed token and take 90% of what remains at [now]. *)
Definition rescheduled_delay (actor : Actor) (now : Time) (n : nat)
  : option Duration :=
  match RefreshAccessToken actor n with
  | inr _ => None
  | inl s =>
      match ParseJWT actor (TrimPrefix s "bearer ") with
      | inr _ => None
      | inl token =>
          match Expiration token with
          | Some expiration => Some (timeToRefresh (Until now expiration))
          | None => None
          end
      end
  end.

(** A collaborator set used to exercise the scheduler: the first refresh
    returns a token that expires 1000 s after [Now], the second one a token
    that expires 2900 s after [Now], and every later refresh is refused. *)
Definition sample_parse (s : string) : JWT + error :=
  if String.eqb s "t1000" then inl {| Expiration := Some (1000 * Second) |}
  else if String.eqb s "t2900" then inl {| Expiration := Some (2900 * Second) |}
  else if String.eqb s "noexp" then inl {| Expiration := None |}
  else inr (Err "not a compact JWS").

Definition sample_actor : Actor :=
  {| RefreshAccessToken := fun n =>
       match n with
       | O => inl "bearer t1000"
       | S O => inl "bearer t2900"
       | _ => inr (Err "invalid_grant")
       end;
     ParseJWT := sample_parse;
     Now := 0 |}.

(** The same platform handing out a token without an [exp] claim. *)
Definition noexp_actor : Actor :=
  {| RefreshAccessToken := fun _ => inl "bearer noexp";
     ParseJWT := sample_parse;
     Now := 0 |}.

(** A platform whose token expires [e] nanoseconds after [Now]. *)
Definition actor_expiring_in (e : Duration) : Actor :=
  {| RefreshAccessToken := fun _ => inl "bearer tok";
     ParseJWT := fun _ => inl {| Expiration := Some e |};
     Now := 0 |}.

Definition forty_years : Duration := 40 * 365 * 24 * 3600 * Second.

End TokenRefresh.

(** ** Go strings as byte strings, and unicode/utf8 *)

Module Utf8.

Definition byte_val (a : ascii) : Z := Z.of_N (N_of_ascii a).

Definition between (lo hi : Z) (a : ascii) : bool :=
  (lo <=? byte_val a) && (byte_val a <=? hi).

(** The second byte a lead byte accepts ([acceptRanges] of unicode/utf8). *)
Definition second_ok (lead : Z) (b1 : ascii) : bool :=
  if lead =? 224 then between 160 191 b1        (* E0: A0..BF *)
  else if lead =? 237 then between 128 159 b1   (* ED: 80..9F *)
  else if lead =? 240 then between 144 191 b1   (* F0: 90..BF *)
  else if lead =? 244 then between 128 143 b1   (* F4: 80..8F *)
  else between 128 191 b1.

(** [utf8.DecodeRuneInString]: [Some n] when a well-formed encoding of
    [n] bytes heads [s]; [None] for [(RuneError, 1)] (and for the empty
    string). *)
Definition rune_size (s : string) : option nat :=
  match s with
  | EmptyString => None
  | String b0 rest =>
      let x := byte_val b0 in
      if x <? 128 then Some 1%nat
      else if x <? 194 then None
      else if x <? 224 then
        match rest with
        | String b1 _ => if second_ok x b1 then Some 2%nat else None
        | _ => None
        end
      else if x <? 240 then
        match rest with
        | String b1 (String b2 _) =>
            if second_ok x b1 && between 128 191 b2 then Some 3%nat else None
        | _ => None
        end
      else if x <? 245 then
        match rest with
        | String b1 (String b2 (String b3 _)) =>
            if second_ok x b1 && between 128 191 b2 && between 128 191 b3
            then Some 4%nat else None
        | _ => None
        end
      else None
  end.

(** [skip] bytes of the rune in progress are still to be passed over. *)
Fixpoint valid_from (skip : nat) (s : string) : bool :=
  match s with
  | EmptyString => true
  | String b rest =>
      match skip with
      | S k => valid_from k rest
      | O =>
          match rune_size s with
          | Some n => valid_from (Nat.pred n) rest
          | None => false
          end
      end
  end.

(** [utf8.ValidString]. *)
Definition ValidString (s : string) : bool := valid_from 0 s.

(** U+FFFD in UTF-8: EF BF BD. *)
Definition replacement : string :=
  String (ascii_of_nat 239) (String (ascii_of_nat 191)
    (String (ascii_of_nat 189) EmptyString)).

Fixpoint to_valid_from (skip : nat) (s : string) : string :=
  match s with
  | EmptyString => EmptyString
  | String b rest =>
      match skip with
      | S k => String b (to_valid_from k rest)
      | O =>
          match rune_size s with
          | Some n => String b (to_valid_from (Nat.pred n) rest)
          | None => (replacement ++ to_valid_from 0 rest)%string
          end
      end
  end.

(** The string a JSON text carries for the Go string [s]: encoding/json
    coerces string values to valid UTF-8, replacing each invalid byte by
    U+FFFD. *)
Definition ToValid (s : string) : string := to_valid_from 0 s.

End Utf8.

(** ** encoding/json: documents, and decoding into the structs used here *)

Module Json.

(** A JSON text is represented by the document it denotes.  Object members
    keep their order and may repeat. *)
Inductive value : Type :=
| Null
| Bool (b : bool)
| Number (literal : string)
| Str (s : string)
| Array (items : list value)
| Object (members : list (string * value)).

(** What [json.Marshal] writes for a Go string. *)
Definition of_string (s : string) : value := Str (Utf8.ToValid s).

Definition lower (a : ascii) : ascii :=
  let n := nat_of_ascii a in
  if ((65 <=? n) && (n <=? 90))%nat then ascii_of_nat (n + 32) else a.

Fixpoint fold_name (s : string) : string :=
  match s with
  | EmptyString => EmptyString
  | String a r => String (lower a) (fold_name r)
  end.

(** A member key selects the struct field tagged [name] when it equals the
    tag, exactly or up to the case of ASCII letters (the tags used here have
    no letter with a non-ASCII case variant). *)
Definition key_matches (name key : string) : bool :=
  String.eqb (fold_name name) (fold_name key).

Definition UnmarshalTypeError : error :=
  Err "json: cannot unmarshal value into Go struct field".

(** Decoding into a [string] field holding [cur]: [null] leaves it. *)
Definition into_string (v : value) (cur : string) : string + error :=
  match v with
  | Null => inl cur
  | Str s => inl s
  | _ => inr UnmarshalTypeError
  end.

(** The members of an object decoded, in order, into a struct with the one
    field [name]; [into] decodes a value into that field.  Other members
    are skipped. *)
Fixpoint into_field {A : Type} (name : string) (into : value -> A -> A + error)
  (members : list (string * value)) (cur : A) : A + error :=
  match members with
  | [] => inl cur
  | (key, v) :: rest =>
      if key_matches name key then
        match into v cur with
        | inl cur' => into_field name into rest cur'
        | inr e => inr e
        end
      else into_field name into rest cur
  end.

(** Decoding into a struct with the one field [name]: [null] leaves it. *)
Definition into_struct {A : Type} (name : string) (into : value -> A -> A + error)
  (v : value) (cur : A) : A + error :=
  match v with
  | Null => inl cur
  | Object members => into_field name into members cur
  | _ => inr UnmarshalTypeError
  end.

(** The first member named [key], as a lookup by exact name. *)
Fixpoint member (key : string) (members : list (string * value)) : option value :=
  match members with
  | [] => None
  | (k, v) :: rest => if String.eqb k key then Some v else member key rest
  end.

End Json.

(** ** api/cloudcontroller/ccv3: [Relationship] *)

Module Relationship.

(** [type Relationship struct { GUID string }]. *)
Record Relationship : Type := {
  GUID : string
}.

(** [Relationship.MarshalJSON].  An empty GUID marshals the struct whose
    [Data interface{}] is nil; any other GUID marshals
    [struct { Data struct { GUID string `json:"guid"` } `json:"data"` }]. *)
Definition MarshalJSON (r : Relationship) : Json.value + error :=
  if String.eqb (GUID r) "" then
    inl (Json.Object [("data", Json.Null)])
  else
    inl (Json.Object [("data", Json.Object [("guid", Json.of_string (GUID r))])]).

(** [cloudcontroller.DecodeJSON(data, &ccRelationship)] for the local
    [ccRelationship] of [UnmarshalJSON], which starts zeroed; the result is
    [ccRelationship.Data.GUID].  The helper is not among the sources; it is
    taken to decode with encoding/json, as its name and its use here say. *)
Definition DecodeJSON (data : Json.value) : string + error :=
  Json.into_struct "data" (Json.into_struct "guid" Json.into_string) data "".

(** [Relationship.UnmarshalJSON] (pointer receiver): the receiver after
    the call and the error returned. *)
Definition UnmarshalJSON (r : Relationship) (data : Json.value)
  : Relationship * option error :=
  match DecodeJSON data with
  | inr e => (r, Some e)
  | inl guid => ({| GUID := guid |}, None)
  end.

(** Marshal, then unmarshal into [r0]. *)
Definition round_trip (r0 r : Relationship) : Relationship * option error :=
  match MarshalJSON r with
  | inl data => UnmarshalJSON r0 data
  | inr e => (r0, Some e)
  end.

(** A GUID that is the single byte FF: not valid UTF-8. *)
Definition byte_ff : string := String (ascii_of_nat 255) EmptyString.

End Relationship.

(** ** api/cloudcontroller/ccv3: [RealRequester] *)

Module Requester.

(** [type JobURL string] and [type Warnings []string]. *)
Definition JobURL : Type := string.
Definition Warnings : Type := list string.

(** [internal.Params], a [map[string]string], and [ccv3.Query]. *)
Definition Params : Type := list (string * string).

Record Query : Type := {
  Key : string;
  Values : list string
}.

Section WithCollaborators.

(** What an [interface{}] may hold, the request built by
    [client.NewHTTPRequest], and the state of the far end of the
    connection. *)
Variables (any request remote : Type).

(** [json.Marshal] on request bodies. *)
Variable json_Marshal : any -> string + error.

Record requestParams : Type := {
  RequestName : string;
  URIParams : Params;
  Queries : list Query;
  RequestBody : option any;
  ResponseBody : option any
}.

(** [requestOptions], as far as [MakeRequest] fills it. *)
Record requestOptions : Type := {
  optRequestName : string;
  optURIParams : Params;
  optQuery : list Query;
  optBody : option string
}.

(** [cloudcontroller.Response], as far as the requester reads it. *)
Record Response : Type := {
  DecodeJSONResponseInto : option any;
  ResponseWarnings : Warnings;
  ResourceLocationURL : string
}.

(** The client: [NewHTTPRequest], and what [Connection.Make] does to the
    response it is handed and to the far end. *)
Record Client : Type := {
  NewHTTPRequest : requestOptions -> request + error;
  Connection_Make :
    request -> Response -> remote -> (Response * option error) * remote
}.

(** The far end, and the requests sent to it so far, oldest first. *)
Record World : Type := {
  exchanges : list request;
  server : remote
}.

(** [client.Connection.Make(request, &response)]. *)
Definition Make (client : Client) (req : request) (response : Response)
  (w : World) : (Response * option error) * World :=
  let '(out, far) := Connection_Make client req response (server w) in
  (out, {| exchanges := exchanges w ++ [req]; server := far |}).

(** [response := cloudcontroller.Response{}], then
    [response.DecodeJSONResponseInto = &requestParams.ResponseBody] when
    the latter is not nil. *)
Definition new_response (p : requestParams) : Response :=
  {| DecodeJSONResponseInto :=
       match ResponseBody p with
       | Some target => Some target
       | None => None
       end;
     ResponseWarnings := [];
     ResourceLocationURL := "" |}.

Definition GetSingleResponse (client : Client) (p : requestParams)
  (req : request) (w : World) : (JobURL * Warnings * option error) * World :=
  let response := new_response p in
  let '((response, err), w) := Make client req response w in
  ((ResourceLocationURL response, ResponseWarnings response, err), w).

(** The [options.Body] that [MakeRequest] sets, or the marshalling error. *)
Definition marshal_body (p : requestParams) : option string + error :=
  match RequestBody p with
  | Some b =>
      match json_Marshal b with
      | inr e => inr e
      | inl body => inl (Some body)
      end
  | None => inl None
  end.

Definition options_of (p : requestParams) (body : option string)
  : requestOptions :=
  {| optRequestName := RequestName p;
     optURIParams := URIParams p;
     optQuery := Queries p;
     optBody := body |}.

Definition MakeRequest (client : Client) (p : requestParams) (w : World)
  : (JobURL * Warnings * option error) * World :=
  match marshal_body p with
  | inr e => (("", [], Some e), w)
  | inl body =>
      match NewHTTPRequest client (options_of p body) with
      | inr e => (("", [], Some e), w)
      | inl req =>
          let response := new_response p in
          let '(_, w) := Make client req response w in
          GetSingleResponse client p req w
      end
  end.

End WithCollaborators.

Arguments RequestName {any}.
Arguments URIParams {any}.
Arguments Queries {any}.
Arguments RequestBody {any}.
Arguments ResponseBody {any}.
Arguments DecodeJSONResponseInto {any}.
Arguments ResponseWarnings {any}.
Arguments ResourceLocationURL {any}.
Arguments NewHTTPRequest {any request remote}.
Arguments Connection_Make {any request remote}.
Arguments exchanges {request remote}.
Arguments server {request remote}.
Arguments Make {any request remote}.
Arguments new_response {any}.
Arguments GetSingleResponse {any request remote}.
Arguments marshal_body {any}.
Arguments options_of {any}.
Arguments MakeRequest {any request remote}.

(** A far end that counts the exchanges it has served.  The first one is
    answered with an error and a warning, every later one with a job
    location. *)
Definition flaky_Make (req : requestOptions) (response : Response string)
  (served : nat)
  : (Response string * option error) * nat :=
  match served with
  | O =>
      ({| DecodeJSONResponseInto := DecodeJSONResponseInto response;
          ResponseWarnings := ["first-warning"];
          ResourceLocationURL := "" |},
       Some (Err "connection reset"), S served)
  | S _ =>
      ({| DecodeJSONResponseInto := DecodeJSONResponseInto response;
          ResponseWarnings := ["second-warning"];
          ResourceLocationURL := "/v3/jobs/some-job" |},
       None, S served)
  end.

Definition flaky_client : Client string requestOptions nat :=
  {| NewHTTPRequest := fun options => inl options;
     Connection_Make := flaky_Make |}.

(** A client whose request cannot be built. *)
Definition unroutable_client : Client string requestOptions nat :=
  {| NewHTTPRequest := fun _ => inr (Err "no route for this request name");
     Connection_Make := flaky_Make |}.

Definition delete_app : requestParams string :=
  {| RequestName := "DeleteApplication";
     URIParams := [("app_guid", "some-app-guid")];
     Queries := [];
     RequestBody := None;
     ResponseBody := None |}.

Definition fresh_world : World requestOptions nat :=
  {| exchanges := []; server := O |}.

End Requester.

(** ** encoding/base64: [StdEncoding] *)

Module Base64.

(** [encodeStd]. *)
Definition alphabet : string :=
  "ABCDEFGHIJKLMNOPQRSTUVWXYZabcdefghijklmnopqrstuvwxyz0123456789+/".

Definition pad : ascii := "="%char.

(** The character that stands for a 6-bit value. *)
Definition char_of (n : N) : ascii :=
  match String.get (N.to_nat n) alphabet with
  | Some c => c
  | None => pad
  end.

Fixpoint index_from (i : N) (c : ascii) (s : string) : option N :=
  match s with
  | EmptyString => None
  | String a r => if Ascii.eqb a c then Some i else index_from (N.succ i) c r
  end.

(** The 6-bit value of a character of the alphabet ([decodeMap]). *)
Definition value_of (c : ascii) : option N := index_from 0 c alphabet.

Definition byte (n : N) : ascii := ascii_of_N n.

(** Three bytes make four characters. *)
Definition enc3 (a b c : ascii) : string :=
  let x := N_of_ascii a in
  let y := N_of_ascii b in
  let z := N_of_ascii c in
  String (char_of (x / 4))
    (String (char_of ((x mod 4) * 16 + y / 16))
       (String (char_of ((y mod 16) * 4 + z / 64))
          (String (char_of (z mod 64)) EmptyString))).

(** Two trailing bytes make three characters and one pad. *)
Definition enc2 (a b : ascii) : string :=
  let x := N_of_ascii a in
  let y := N_of_ascii b in
  String (char_of (x / 4))
    (String (char_of ((x mod 4) * 16 + y / 16))
       (String (char_of ((y mod 16) * 4))
          (String pad EmptyString))).

(** One trailing byte makes two characters and two pads. *)
Definition enc1 (a : ascii) : string :=
  let x := N_of_ascii a in
  String (char_of (x / 4))
    (String (char_of ((x mod 4) * 16))
       (String pad (String pad EmptyString))).

(** [StdEncoding.EncodeToString]. *)
Fixpoint EncodeToString (src : string) : string :=
  match src with
  | EmptyString => EmptyString
  | String a EmptyString => enc1 a
  | String a (String b EmptyString) => enc2 a b
  | String a (String b (String c rest)) =>
      (enc3 a b c ++ EncodeToString rest)%string
  end.

Definition dec4 (w x y z : ascii) : option string :=
  match value_of w, value_of x, value_of y, value_of z with
  | Some p, Some q, Some r, Some t =>
      Some (String (byte (p * 4 + q / 16))
              (String (byte ((q mod 16) * 16 + r / 4))
                 (String (byte ((r mod 4) * 64 + t)) EmptyString)))
  | _, _, _, _ => None
  end.

Definition dec3 (w x y : ascii) : option string :=
  match value_of w, value_of x, value_of y with
  | Some p, Some q, Some r =>
      Some (String (byte (p * 4 + q / 16))
              (String (byte ((q mod 16) * 16 + r / 4)) EmptyString))
  | _, _, _ => None
  end.

Definition dec2 (w x : ascii) : option string :=
  match value_of w, value_of x with
  | Some p, Some q => Some (String (byte (p * 4 + q / 16)) EmptyString)
  | _, _ => None
  end.

(** Decoding of padded standard base64: groups of four characters, pads
    only at the end of the last group; [None] for malformed input. *)
Fixpoint DecodeString (s : string) : option string :=
  match s with
  | EmptyString => Some EmptyString
  | String w (String x (String y (String z rest))) =>
      match rest with
      | EmptyString =>
          if Ascii.eqb z pad then
            if Ascii.eqb y pad then dec2 w x else dec3 w x y
          else dec4 w x y z
      | String _ _ =>
          match dec4 w x y z, DecodeString rest with
          | Some h, Some t => Some (h ++ t)%string
          | _, _ => None
          end
      end
  | _ => None
  end.

(** The check run over the 64 values: the character of [k] is no pad and
    has the value [k]. *)
Definition sextet_ok (k : nat) : bool :=
  let n := N.of_nat k in
  match value_of (char_of n) with
  | Some m => N.eqb m n && negb (Ascii.eqb (char_of n) pad)
  | None => false
  end.

End Base64.

(** ** strconv and time, as the log-cache queries use them *)

Module Strconv.

(** [strconv.FormatInt(z, 10)]. *)
Definition FormatInt (z : Z) : string :=
  DecimalString.NilZero.string_of_int (Z.to_int z).

(** A string-encoded integer read back. *)
Definition ParseInt (s : string) : option Z :=
  option_map Z.of_int (DecimalString.NilZero.int_of_string s).

End Strconv.

Module GoTime.

(** Seconds from 1 January of year 1 to the Unix epoch. *)
Definition unixToInternal : Z :=
  (1969 * 365 + 1969 / 4 - 1969 / 100 + 1969 / 400) * 86400.

(** [time.Time{}.UnixNano()]: the zero instant lies outside the range of
    int64 nanoseconds, and the product wraps around. *)
Definition zero_UnixNano : Z :=
  Int64.add (Int64.mul (0 - unixToInternal) 1000000000) 0.

End GoTime.

(** ** The log-cache read endpoint *)

Module LogCache.

(** Modelled from the spec: the query parameters of the read endpoint,
    [GET /api/v1/read/{sourceID}] (the log-cache client that builds them is
    not among the sources). *)
Record query : Type := {
  start_time : Z;
  descending : bool;
  limit : option Z;
  envelope_types : option string
}.

Fixpoint join (sep : string) (parts : list string) : string :=
  match parts with
  | [] => EmptyString
  | [x] => x
  | x :: rest => (x ++ sep ++ join sep rest)%string
  end.

(** Modelled from the spec: the query string of a request, which the
    absent log-cache client builds: the parameters present, keys in
    alphabetical order, in the spelling the handler of the integration test
    compares [r.URL.RawQuery] with. *)
Definition RawQuery (q : query) : string :=
  join "&"
    ((if descending q then ["descending=true"] else []) ++
     match envelope_types q with
     | Some t => [("envelope_types=" ++ t)%string]
     | None => []
     end ++
     match limit q with
     | Some n => [("limit=" ++ Strconv.FormatInt n)%string]
     | None => []
     end ++
     [("start_time=" ++ Strconv.FormatInt (start_time q))%string]).

(** Modelled from the spec: what comes back from one exchange with the
    store, as the absent Cursor Fetcher sees it: a failed exchange
    (connection, non-2xx status), or the document of a 2xx response. *)
Inductive response : Type :=
| Transport (e : error)
| Body (doc : Json.value).

End LogCache.

(** ** integration test "logs command": the fake log-cache *)

Module Mock.

Import LogCache.

Definition logMessage : string := "hello from log-cache".

Definition latestEnvelopeTimestamp : string := "1581447006352020890".
Definition latestEnvelopeTimestampMinusOneSecond : string := "1581447005352020890".
Definition nextEnvelopeTimestamp : string := "1581447009352020890".
Definition nextEnvelopeTimestampPlusOneNanosecond : string := "1581447009352020891".

Definition sourceID : string := "d5d27772-315f-474b-8673-57e34ce2db2c".

(** The document written for the seek query, for the timestamp given. *)
Definition seek_body (ts : string) : Json.value :=
  Json.Object
    [("envelopes",
      Json.Object
        [("batch",
          Json.Array
            [Json.Object
               [("timestamp", Json.Str ts);
                ("source_id", Json.Str sourceID)]])])].

(** The document written for the first poll query: one log envelope. *)
Definition log_body (ts payload : string) : Json.value :=
  Json.Object
    [("envelopes",
      Json.Object
        [("batch",
          Json.Array
            [Json.Object
               [("timestamp", Json.Str ts);
                ("source_id", Json.Str sourceID);
                ("tags", Json.Object [("__v1_type", Json.Str "LogMessage")]);
                ("log",
                 Json.Object
                   [("payload", Json.Str payload);
                    ("type", Json.Str "OUT")])]])])].

(** [{}]. *)
Definition empty_body : Json.value := Json.Object [].

(** What the handler does with a request: a document written after
    [WriteHeader(http.StatusOK)], or [Fail] on a query string it does not
    know. *)
Inductive reply : Type :=
| Wrote (doc : Json.value)
| Unhandled (rawQuery : string).

(** The handler routed at [/api/v1/read/d5d27772-...], a [switch] on
    [r.URL.RawQuery]; the state is the variable [returnEmptyEnvelope]. *)
Definition handler (returnEmptyEnvelope : bool) (rawQuery : string)
  : reply * bool :=
  if String.eqb rawQuery
       ("descending=true&limit=1&start_time="
          ++ Strconv.FormatInt GoTime.zero_UnixNano)%string
  then
    if returnEmptyEnvelope then (Wrote empty_body, false)
    else (Wrote (seek_body latestEnvelopeTimestamp), returnEmptyEnvelope)
  else if String.eqb rawQuery
       ("envelope_types=LOG&start_time="
          ++ latestEnvelopeTimestampMinusOneSecond)%string
  then
    (Wrote (log_body nextEnvelopeTimestamp (Base64.EncodeToString logMessage)),
     returnEmptyEnvelope)
  else if String.eqb rawQuery
       ("envelope_types=LOG&start_time="
          ++ nextEnvelopeTimestampPlusOneNanosecond)%string
  then (Wrote empty_body, returnEmptyEnvelope)
  else (Unhandled rawQuery, returnEmptyEnvelope).

(** The handler as the store a client talks to; a query it fails on is a
    failed exchange for the client. *)
Definition serve (returnEmptyEnvelope : bool) (rawQuery : string)
  : response * bool :=
  match handler returnEmptyEnvelope rawQuery with
  | (Wrote doc, st) => (Body doc, st)
  | (Unhandled q, st) =>
      (Transport (Err "Unhandled log-cache api query string"), st)
  end.

End Mock.

(** ** The log tail engine *)

Module Tail.

Import LogCache.

(** Modelled from the spec: what a log-typed envelope carries besides the
    common attributes (the engine, [sharedaction.GetStreamingLogs] and the
    log-cache client, is not among the sources). *)
Record LogBody : Type := {
  payload : string;
  outputType : string
}.

(** Modelled from the spec: the Envelope of the data model, whose Go type
    is not among the sources.  Only log-typed envelopes carry a payload and
    an output type. *)
Record Envelope : Type := {
  timestamp : Z;
  sourceID : string;
  tags : list (string * string);
  log : option LogBody
}.

(** Modelled from the spec: the failure of the absent Cursor Fetcher on a
    malformed response or payload. *)
Definition DecodeError : error := Err "log-cache: malformed response".

(** Modelled from the spec: the parsing half of the Cursor Fetcher, which
    is not among the sources.  The response is an object that may hold a
    batch of envelopes; an envelope has a string-encoded [timestamp], a
    [source_id], optional [tags] and, when log-typed, a [log] object with a
    base64 [payload] and an output [type].  The payload is base64-decoded
    here.  Anything else is a decode failure.  [parse_tags] reads the
    optional tags. *)
Definition parse_tags (v : option Json.value) : list (string * string) :=
  match v with
  | Some (Json.Object members) =>
      flat_map (fun kv =>
                  match snd kv with
                  | Json.Str t => [(fst kv, t)]
                  | _ => []
                  end) members
  | _ => []
  end.

(** Modelled from the spec: an optional string member, read by the absent
    Cursor Fetcher. *)
Definition parse_string (v : option Json.value) : string + error :=
  match v with
  | None => inl EmptyString
  | Some Json.Null => inl EmptyString
  | Some (Json.Str t) => inl t
  | Some _ => inr DecodeError
  end.

(** Modelled from the spec: the [log] member of an envelope, read by the
    absent Cursor Fetcher; its payload is base64-decoded. *)
Definition parse_log (v : option Json.value) : option LogBody + error :=
  match v with
  | None => inl None
  | Some Json.Null => inl None
  | Some (Json.Object members) =>
      match parse_string (Json.member "payload" members),
            parse_string (Json.member "type" members) with
      | inl encoded, inl t =>
          match Base64.DecodeString encoded with
          | Some bytes => inl (Some {| payload := bytes; outputType := t |})
          | None => inr DecodeError
          end
      | _, _ => inr DecodeError
      end
  | Some _ => inr DecodeError
  end.

(** Modelled from the spec: one envelope of a batch, read by the absent
    Cursor Fetcher. *)
Definition parse_envelope (v : Json.value) : Envelope + error :=
  match v with
  | Json.Object members =>
      match Json.member "timestamp" members with
      | Some (Json.Str digits) =>
          match Strconv.ParseInt digits,
                parse_string (Json.member "source_id" members),
                parse_log (Json.member "log" members) with
          | Some ts, inl src, inl body =>
              inl {| timestamp := ts;
                     sourceID := src;
                     tags := parse_tags (Json.member "tags" members);
                     log := body |}
          | _, _, _ => inr DecodeError
          end
      | _ => inr DecodeError
      end
  | _ => inr DecodeError
  end.

(** Modelled from the spec: the envelopes of a batch, in order, read by
    the absent Cursor Fetcher; one malformed envelope fails the batch. *)
Fixpoint parse_batch (items : list Json.value) : list Envelope + error :=
  match items with
  | [] => inl []
  | v :: rest =>
      match parse_envelope v, parse_batch rest with
      | inl e, inl es => inl (e :: es)
      | inr err, _ => inr err
      | _, inr err => inr err
      end
  end.

(** Modelled from the spec: the response document, read by the absent
    Cursor Fetcher.  An empty object, or one without a batch, is the empty
    batch and no error. *)
Definition parse_response (doc : Json.value) : list Envelope + error :=
  match doc with
  | Json.Object members =>
      match Json.member "envelopes" members with
      | None => inl []
      | Some Json.Null => inl []
      | Some (Json.Object inner) =>
          match Json.member "batch" inner with
          | None => inl []
          | Some Json.Null => inl []
          | Some (Json.Array items) => parse_batch items
          | Some _ => inr DecodeError
          end
      | Some _ => inr DecodeError
      end
  | _ => inr DecodeError
  end.

(** Modelled from the spec: the two fixed waits of the absent engine, the
    one of the Seek Stage and the one of the Poll Loop; the spec gives them
    no value. *)
Inductive delay : Type :=
| SeekRetryDelay
| EmptyBatchDelay.

(** Modelled from the spec: what a session of the absent engine does, in
    order: a query sent to the store, a wait, an envelope sent on the output
    channel, an error sent on the error channel, the channels closed on
    cancellation. *)
Inductive event : Type :=
| Queried (q : query)
| Waited (d : delay)
| Emitted (e : Envelope)
| Failed (err : error)
| Closed.

Section Engine.

(** The store: its state, and how it answers a query string. *)
Variable store : Type.
Variable serve : store -> string -> response * store.

(** Modelled from the spec: the Cursor Fetcher, which is not among the
    sources.  One query, one parsed batch; a failed exchange and a
    malformed response both fail the fetch. *)
Definition fetch (q : query) (s : store) : (list Envelope + error) * store :=
  match serve s (RawQuery q) with
  | (Transport e, s') => (inr e, s')
  | (Body doc, s') => (parse_response doc, s')
  end.

(** Modelled from the spec: the query of the Seek Stage, at most one
    envelope, newest first, from the zero instant ([time.Time{}], whose
    [UnixNano] the test handler expects). *)
Definition seek_query : query :=
  {| start_time := GoTime.zero_UnixNano;
     descending := true;
     limit := Some 1;
     envelope_types := None |}.

(** Modelled from the spec: how the absent Seek Stage ends: with the
    timestamp found, with a failed fetch, or cancelled. *)
Inductive seek_outcome : Type :=
| Found (T : Z)
| SeekFailed (err : error)
| SeekCancelled.

(** Modelled from the spec: the Seek Stage, which is not among the
    sources.  It repeats the seek query, with a fixed wait after every
    empty answer, until an envelope comes back, and returns its timestamp.
    [fuel] is the number of queries the session issues before the caller
    cancels it.  Returns the events, the outcome, the store and the fuel
    left. *)
Fixpoint seek (fuel : nat) (s : store)
  : list event * seek_outcome * store * nat :=
  match fuel with
  | O => ([], SeekCancelled, s, O)
  | S n =>
      match fetch seek_query s with
      | (inr err, s') => ([Queried seek_query], SeekFailed err, s', n)
      | (inl [], s') =>
          let '(evs, out, s'', m) := seek n s' in
          (Queried seek_query :: Waited SeekRetryDelay :: evs, out, s'', m)
      | (inl (e :: _), s') => ([Queried seek_query], Found (timestamp e), s', n)
      end
  end.

(** Modelled from the spec: the query of the Poll Loop, log envelopes
    from one nanosecond after the Cursor. *)
Definition poll_query (cursor : Z) : query :=
  {| start_time := cursor + 1;
     descending := false;
     limit := None;
     envelope_types := Some "LOG" |}.

(** Modelled from the spec: the Cursor the absent Poll Loop starts with.
    It is initialised from [T] so that the first boundary, Cursor + 1 ns, is
    [T] - 1 s (4.3, steps 1 and 4); the envelopes of the look-back window,
    the one found by the Seek Stage included, then lie above the Cursor and
    are delivered (4.1). *)
Definition initial_cursor (T : Z) : Z := T - 1000000000 - 1.

(** Modelled from the spec: emission of a batch (step 3 and the edge case
    policy of the Poll Loop).  Envelopes are taken in the order of the
    batch; one whose timestamp is not strictly greater than the Cursor is
    dropped, the others are emitted and move the Cursor.  Returns the
    events and the Cursor afterwards. *)
Fixpoint emit (cursor : Z) (batch : list Envelope) : list event * Z :=
  match batch with
  | [] => ([], cursor)
  | e :: rest =>
      if cursor <? timestamp e then
        let '(evs, c) := emit (timestamp e) rest in (Emitted e :: evs, c)
      else emit cursor rest
  end.

(** Modelled from the spec: the Poll Loop, which is not among the sources.
    Every iteration queries from Cursor + 1 ns; an empty batch is followed
    by a fixed wait and leaves the Cursor alone; a failed fetch is sent on
    the error channel and ends the loop; cancellation closes the
    channels. *)
Fixpoint poll (fuel : nat) (cursor : Z) (s : store) : list event :=
  match fuel with
  | O => [Closed]
  | S n =>
      Queried (poll_query cursor) ::
      match fetch (poll_query cursor) s with
      | (inr err, _) => [Failed err]
      | (inl [], s') => Waited EmptyBatchDelay :: poll n cursor s'
      | (inl batch, s') =>
          let '(evs, c) := emit cursor batch in evs ++ poll n c s'
      end
  end.

(** Modelled from the spec: the Tail Coordinator, which is not among the
    sources: the Seek Stage, then the Poll Loop. *)
Definition tail (fuel : nat) (s : store) : list event :=
  let '(evs, out, s', n) := seek fuel s in
  evs ++
  match out with
  | Found T => poll n (initial_cursor T) s'
  | SeekFailed err => [Failed err]
  | SeekCancelled => [Closed]
  end.

End Engine.

(** A store that plays a script: the next response, whatever the query. *)
Definition scripted (script : list response) (rawQuery : string)
  : response * list response :=
  match script with
  | r :: rest => (r, rest)
  | [] => (Transport (Err "connection refused"), [])
  end.

(** The envelopes a trace emits, in order. *)
Fixpoint emitted (tr : list event) : list Envelope :=
  match tr with
  | [] => []
  | Emitted e :: rest => e :: emitted rest
  | _ :: rest => emitted rest
  end.

(** The queries a trace issues, in order. *)
Fixpoint queries (tr : list event) : list query :=
  match tr with
  | [] => []
  | Queried q :: rest => q :: queries rest
  | _ :: rest => queries rest
  end.

Fixpoint failures (tr : list event) : list error :=
  match tr with
  | [] => []
  | Failed e :: rest => e :: failures rest
  | _ :: rest => failures rest
  end.

(** The Cursor as the data model defines it, read off a trace: the
    timestamp of the last envelope emitted, when there is one. *)
Definition last_emitted (tr : list event) : option Z :=
  match rev (emitted tr) with
  | e :: _ => Some (timestamp e)
  | [] => None
  end.

(** Along [tr], starting from the Cursor [c]: every query starts one
    nanosecond after the Cursor, and every emitted envelope is newer than
    the Cursor and becomes it. *)
Fixpoint follows_cursor (c : Z) (tr : list event) : Prop :=
  match tr with
  | [] => True
  | Queried q :: rest => start_time q = c + 1 /\ follows_cursor c rest
  | Emitted e :: rest => c < timestamp e /\ follows_cursor (timestamp e) rest
  | _ :: rest => follows_cursor c rest
  end.

(** The same, for a trace that may start before any Cursor exists. *)
Fixpoint follows_last (last : option Z) (tr : list event) : Prop :=
  match tr with
  | [] => True
  | Queried q :: rest =>
      (forall c, last = Some c -> start_time q = c + 1) /\
      follows_last last rest
  | Emitted e :: rest =>
      (forall c, last = Some c -> c < timestamp e) /\
      follows_last (Some (timestamp e)) rest
  | _ :: rest => follows_last last rest
  end.

(** The seek part of a trace: [n] empty answers, each followed by the
    wait, then the query that is answered. *)
Fixpoint seek_events (n : nat) : list event :=
  match n with
  | O => [Queried seek_query]
  | S k => Queried seek_query :: Waited SeekRetryDelay :: seek_events k
  end.

(** The two timestamps of the integration test, and the envelope its
    handler describes in answer to the first poll query. *)
Definition mock_T : Z := 1581447006352020890.
Definition mock_t : Z := 1581447009352020890.

Definition mock_envelope : Envelope :=
  {| timestamp := mock_t;
     sourceID := Mock.sourceID;
     tags := [("__v1_type", "LogMessage")];
     log := Some {| payload := Mock.logMessage; outputType := "OUT" |} |}.

End Tail.

(** ** The payload of an envelope as the store sends it *)

Module TailDocs.

(** Modelled from the spec: the base64 text under [log.payload] of an
    envelope of the response (the engine that reads it is not among the
    sources). *)
Definition payload_text (v : Json.value) : option string :=
  match v with
  | Json.Object members =>
      match Json.member "log" members with
      | Some (Json.Object inner) =>
          match Json.member "payload" inner with
          | Some (Json.Str p) => Some p
          | _ => None
          end
      | _ => None
      end
  | _ => None
  end.

(** The envelope the test handler writes for the first poll query, and
    the members around it. *)
Definition mock_item : Json.value :=
  Json.Object
    [("timestamp", Json.Str Mock.nextEnvelopeTimestamp);
     ("source_id", Json.Str Mock.sourceID);
     ("tags", Json.Object [("__v1_type", Json.Str "LogMessage")]);
     ("log",
      Json.Object
        [("payload", Json.Str (Base64.EncodeToString Mock.logMessage));
         ("type", Json.Str "OUT")])].

Definition mock_inner : list (string * Json.value) :=
  [("batch", Json.Array [mock_item])].

Definition mock_members : list (string * Json.value) :=
  [("envelopes", Json.Object mock_inner)].

End TailDocs.

(** ** Proof automation *)

Ltac sextet_arith := zify; Z.to_euclidean_division_equations; lia.

(** ** api/cloudcontroller/ccv3: [MakeListRequest] and [GetListResponse] *)

Module RequesterList.

Import Requester.

Section WithCollaborators.

Variables (any request remote : Type).

Variable json_Marshal : any -> string + error.

(** [client.paginate(request, obj, callback)], which is not among the
    sources.  The callback it is given by [GetListResponse] never fails and
    only records its argument, so what matters of a call is the items it
    hands over, in order, and the warnings and error it returns. *)
Variable paginate :
  request -> option any -> World request remote ->
  (list any * Warnings * option error) * World request remote.

(** [GetListResponse]: [fullResourceList] starts nil and the callback
    appends every item to it; the list is returned whatever [err] is. *)
Definition GetListResponse (client : Client any request remote)
  (p : requestParams any) (req : request) (w : World request remote)
  : (list any * Warnings * option error) * World request remote :=
  let fullResourceList : list any := [] in
  let '((items, warnings, err), w) := paginate req (ResponseBody p) w in
  ((fullResourceList ++ items, warnings, err), w).

Definition MakeListRequest (client : Client any request remote)
  (p : requestParams any) (w : World request remote)
  : (list any * Warnings * option error) * World request remote :=
  match marshal_body json_Marshal p with
  | inr e => (([], [], Some e), w)
  | inl body =>
      match NewHTTPRequest client (options_of p body) with
      | inr e => (([], [], Some e), w)
      | inl req =>
          let response := new_response p in
          let '(_, w) := Make client req response w in
          GetListResponse client p req w
      end
  end.

End WithCollaborators.

Arguments GetListResponse {any request remote}.
Arguments MakeListRequest {any request remote}.

(** A pagination that reads two pages off the far end. *)
Definition two_pages (req : requestOptions) (target : option string)
  (w : World requestOptions nat)
  : (list string * Warnings * option error) * World requestOptions nat :=
  ((["app-1"; "app-2"], ["page-warning"], None),
   {| exchanges := exchanges w ++ [req; req]; server := (server w + 2)%nat |}).

Definition list_apps : requestParams string :=
  {| RequestName := "GetApplications";
     URIParams := [];
     Queries := [];
     RequestBody := None;
     ResponseBody := Some "application" |}.

End RequesterList.

(** ** api/cloudcontroller/ccv3: job_url.go and the relationship deletions *)

Module Ccv3.

Import Requester.

(** [http.Header], looked up by canonical key. *)
Definition Header : Type := string -> list string.

(** [h.Set(key, value)] for a key in canonical form, as "Content-Type"
    is: the values of [key] are replaced by the single [value]. *)
Definition Header_Set (h : Header) (key value : string) : Header :=
  fun k => if String.eqb k key then [value] else h k.

Section WithClient.

(** What an [interface{}] may hold, all of a request but its header, and
    the state of the far end. *)
Variables (any base remote : Type).

Variable json_Marshal : any -> string + error.

(** [cloudcontroller.Request], as far as these functions touch it. *)
Record Request : Type := {
  base_of : base;
  Header_of : Header
}.

(** [request.Header.Set(key, value)]. *)
Definition set_header (r : Request) (key value : string) : Request :=
  {| base_of := base_of r; Header_of := Header_Set (Header_of r) key value |}.

(** The request names of package [internal], which is not among the
    sources. *)
Variables
  (DeleteApplicationRequest
   PostApplicationActionApplyManifest
   PostSpaceActionApplyManifestRequest
   DeleteIsolationSegmentRelationshipOrganizationRequest
   DeleteServiceInstanceRelationshipsSharedSpaceRequest : string).

(** [cloudcontroller.Response{}]. *)
Definition zero_response : Response any :=
  {| DecodeJSONResponseInto := None;
     ResponseWarnings := [];
     ResourceLocationURL := "" |}.

(** [DeleteApplication], with [client.requester] the [RealRequester]. *)
Definition DeleteApplication (client : Client any Request remote)
  (appGUID : string) (w : World Request remote)
  : (JobURL * Warnings * option error) * World Request remote :=
  MakeRequest json_Marshal client
    {| RequestName := DeleteApplicationRequest;
       URIParams := [("app_guid", appGUID)];
       Queries := [];
       RequestBody := None;
       ResponseBody := None |} w.

Definition UpdateApplicationApplyManifest (client : Client any Request remote)
  (appGUID rawManifest : string) (w : World Request remote)
  : (JobURL * Warnings * option error) * World Request remote :=
  match NewHTTPRequest client
          {| optRequestName := PostApplicationActionApplyManifest;
             optURIParams := [("app_guid", appGUID)];
             optQuery := [];
             optBody := Some rawManifest |} with
  | inr err => (("", [], Some err), w)
  | inl request =>
      let request := set_header request "Content-Type" "application/x-yaml" in
      let response := zero_response in
      let '((response, err), w) := Make client request response w in
      ((ResourceLocationURL response, ResponseWarnings response, err), w)
  end.

Definition UpdateSpaceApplyManifest (client : Client any Request remote)
  (spaceGUID rawManifest : string) (query : list Query)
  (w : World Request remote)
  : (JobURL * Warnings * option error) * World Request remote :=
  match NewHTTPRequest client
          {| optRequestName := PostSpaceActionApplyManifestRequest;
             optURIParams := [("space_guid", spaceGUID)];
             optQuery := query;
             optBody := Some rawManifest |} with
  | inr requestExecuteErr => (("", [], Some requestExecuteErr), w)
  | inl request =>
      let request := set_header request "Content-Type" "application/x-yaml" in
      let response := zero_response in
      let '((response, err), w) := Make client request response w in
      ((ResourceLocationURL response, ResponseWarnings response, err), w)
  end.

(** [DeleteIsolationSegmentOrganization], with [client.requester] the
    [RealRequester]: the job URL is dropped. *)
Definition DeleteIsolationSegmentOrganization
  (client : Client any Request remote)
  (isolationSegmentGUID orgGUID : string) (w : World Request remote)
  : (Warnings * option error) * World Request remote :=
  let '((_, warnings, err), w) :=
    MakeRequest json_Marshal client
      {| RequestName := DeleteIsolationSegmentRelationshipOrganizationRequest;
         URIParams := [("isolation_segment_guid", isolationSegmentGUID);
                       ("organization_guid", orgGUID)];
         Queries := [];
         RequestBody := None;
         ResponseBody := None |} w in
  ((warnings, err), w).

(** [DeleteServiceInstanceRelationshipsSharedSpace], likewise. *)
Definition DeleteServiceInstanceRelationshipsSharedSpace
  (client : Client any Request remote)
  (serviceInstanceGUID spaceGUID : string) (w : World Request remote)
  : (Warnings * option error) * World Request remote :=
  let '((_, warnings, err), w) :=
    MakeRequest json_Marshal client
      {| RequestName := DeleteServiceInstanceRelationshipsSharedSpaceRequest;
         URIParams := [("service_instance_guid", serviceInstanceGUID);
                       ("space_guid", spaceGUID)];
         Queries := [];
         RequestBody := None;
         ResponseBody := None |} w in
  ((warnings, err), w).

End WithClient.

Arguments base_of {base}.
Arguments Header_of {base}.
Arguments set_header {base}.
Arguments zero_response {any}.
Arguments DeleteApplication {any base remote}.
Arguments UpdateApplicationApplyManifest {any base remote}.
Arguments UpdateSpaceApplyManifest {any base remote}.
Arguments DeleteIsolationSegmentOrganization {any base remote}.
Arguments DeleteServiceInstanceRelationshipsSharedSpace {any base remote}.

(** A client that builds a JSON request out of the options, and a far end
    that answers the first exchange with an error and the later ones with
    a job location. *)
Definition json_header : Header :=
  fun k => if String.eqb k "Content-Type" then ["application/json"] else [].

Definition sample_Make (req : Request requestOptions) (response : Response string)
  (served : nat) : (Response string * option error) * nat :=
  match served with
  | O =>
      ({| DecodeJSONResponseInto := DecodeJSONResponseInto response;
          ResponseWarnings := ["first-warning"];
          ResourceLocationURL := "" |},
       Some (Err "connection reset"), S served)
  | S _ =>
      ({| DecodeJSONResponseInto := DecodeJSONResponseInto response;
          ResponseWarnings := ["second-warning"];
          ResourceLocationURL := "/v3/jobs/some-job" |},
       None, S served)
  end.

Definition sample_client : Client string (Request requestOptions) nat :=
  {| NewHTTPRequest := fun options =>
       inl {| base_of := options; Header_of := json_header |};
     Connection_Make := sample_Make |}.

Definition sample_world : World (Request requestOptions) nat :=
  {| exchanges := []; server := O |}.

End Ccv3.

(** ** actor/v2action: recent and streaming logs of an application *)

Module V2Logs.

Import Requester.

Section WithCollaborators.

(** The state of the platform, a [v2action.Application], a
    [sharedaction.LogCacheClient], and the two channels and the cancel
    function of a streaming session. *)
Variables (world application client : Type).
Variables (message_chan error_chan cancel_func : Type).

(** A [sharedaction.LogMessage] and what its accessors return. *)
Variables (LogMessage text kind time source_type source_instance : Type).

Variable GUID : application -> string.

Variable GetApplicationByNameAndSpace :
  string -> string -> world -> (application * Warnings * option error) * world.

Variable sharedaction_GetRecentLogs :
  string -> client -> world -> (list LogMessage * option error) * world.

Variable sharedaction_GetStreamingLogs :
  string -> client -> world -> (message_chan * error_chan * cancel_func) * world.

Variable Message : LogMessage -> text.
Variable Type_ : LogMessage -> kind.
Variable Timestamp : LogMessage -> time.
Variable SourceType : LogMessage -> source_type.
Variable SourceInstance : LogMessage -> source_instance.

Variable NewLogMessage :
  text -> kind -> time -> source_type -> source_instance -> LogMessage.

(** [Actor.GetStreamingLogs]. *)
Definition GetStreamingLogs (appGUID : string) (c : client) (w : world)
  : (message_chan * error_chan * cancel_func) * world :=
  sharedaction_GetStreamingLogs appGUID c w.

(** The body of the [for ... range logCacheMessages] loop. *)
Definition rebuilt (message : LogMessage) : LogMessage :=
  NewLogMessage (Message message) (Type_ message) (Timestamp message)
    (SourceType message) (SourceInstance message).

(** [var logMessages []LogMessage], then one [append] per message. *)
Fixpoint append_all (logMessages logCacheMessages : list LogMessage)
  : list LogMessage :=
  match logCacheMessages with
  | [] => logMessages
  | message :: rest => append_all (logMessages ++ [rebuilt message]) rest
  end.

Definition GetRecentLogsForApplicationByNameAndSpace
  (appName spaceGUID : string) (c : client) (w : world)
  : (list LogMessage * Warnings * option error) * world :=
  let '((app, allWarnings, err), w) :=
    GetApplicationByNameAndSpace appName spaceGUID w in
  match err with
  | Some e => (([], allWarnings, Some e), w)
  | None =>
      let '((logCacheMessages, err), w) :=
        sharedaction_GetRecentLogs (GUID app) c w in
      match err with
      | Some e => (([], allWarnings, Some e), w)
      | None => ((append_all [] logCacheMessages, allWarnings, None), w)
      end
  end.

(** What the caller gets to stop streaming: [func() {}], or the cancel
    function of a session. *)
Inductive stop_func : Type :=
| NoOp
| Cancel (f : cancel_func).

(** The five results of [GetStreamingLogsForApplicationByNameAndSpace];
    a nil channel is [None]. *)
Record streaming : Type := {
  messages : option message_chan;
  logErrs : option error_chan;
  stopStreaming : stop_func;
  allWarnings : Warnings;
  streaming_err : option error
}.

Definition GetStreamingLogsForApplicationByNameAndSpace
  (appName spaceGUID : string) (c : client) (w : world)
  : streaming * world :=
  let '((app, warnings, err), w) :=
    GetApplicationByNameAndSpace appName spaceGUID w in
  match err with
  | Some e =>
      ({| messages := None; logErrs := None; stopStreaming := NoOp;
          allWarnings := warnings; streaming_err := Some e |}, w)
  | None =>
      let '((ms, es, stop), w) := GetStreamingLogs (GUID app) c w in
      ({| messages := Some ms; logErrs := Some es; stopStreaming := Cancel stop;
          allWarnings := warnings; streaming_err := err |}, w)
  end.

End WithCollaborators.

Arguments GetStreamingLogs {world client message_chan error_chan cancel_func}.
Arguments rebuilt {LogMessage text kind time source_type source_instance}.
Arguments append_all {LogMessage text kind time source_type source_instance}.
Arguments GetRecentLogsForApplicationByNameAndSpace
  {world application client LogMessage text kind time source_type
   source_instance}.
Arguments GetStreamingLogsForApplicationByNameAndSpace
  {world application client message_chan error_chan cancel_func}.
Arguments NoOp {cancel_func}.
Arguments Cancel {cancel_func}.
Arguments messages {message_chan error_chan cancel_func}.
Arguments logErrs {message_chan error_chan cancel_func}.
Arguments stopStreaming {message_chan error_chan cancel_func}.
Arguments allWarnings {message_chan error_chan cancel_func}.
Arguments streaming_err {message_chan error_chan cancel_func}.

(** A platform that knows the one application "dora" and counts the calls
    made to it. *)
Definition lookup_dora (appName spaceGUID : string) (calls : nat)
  : (string * Warnings * option error) * nat :=
  if String.eqb appName "dora"
  then (("dora-guid", ["lookup-warning"], None), S calls)
  else (("", ["lookup-warning"], Some (Err "app not found")), S calls).

Definition recent_of_dora (appGUID : string) (c : unit) (calls : nat)
  : (list string * option error) * nat :=
  ((["line one"; "line two"], None), S calls).

Definition stream_of_dora (appGUID : string) (c : unit) (calls : nat)
  : (string * string * string) * nat :=
  (("messages", "errors", "cancel"), S calls).

End V2Logs.

(** ** Kinds of JSON values, for the decoding of a Relationship *)

Module JsonKind.

(** A value a struct field does not accept. *)
Definition not_null_or_object (v : Json.value) : Prop :=
  match v with
  | Json.Null | Json.Object _ => False
  | _ => True
  end.

(** A value a string field does not accept. *)
Definition not_null_or_string (v : Json.value) : Prop :=
  match v with
  | Json.Null | Json.Str _ => False
  | _ => True
  end.

End JsonKind.

(** ** The token refresh scheduler: refreshes made along a run *)

Module RefreshCount.

Import TokenRefresh.

(** One iteration of [for { select { ... } }] with its call site
    instrumented: [step], and beside the goroutine the numbers of the calls
    of [RefreshAccessToken] the iteration makes.  The call number [n] is
    recorded in the branch that consults [RefreshAccessToken actor n],
    whether the refresh is granted or refused. *)
Definition step_logged (actor : Actor) (g : goroutine) (ev : event)
  : goroutine * list nat :=
  match g with
  | Looping tk n =>
      match ev with
      | Tick =>
          (match RefreshAccessToken actor n with
           | inr err => Panicked err
           | inl _ => Looping tk (S n)
           end, [n])
      | Quit => (Returned, [])
      end
  | Returned => (Returned, [])
  | Panicked e => (Panicked e, [])
  end.

(** The instrumented loop over the events received: the goroutine
    afterwards and the calls made, in order. *)
Fixpoint run_logged (actor : Actor) (g : goroutine) (evs : list event)
  : goroutine * list nat :=
  match evs with
  | [] => (g, [])
  | ev :: rest =>
      let '(g1, calls1) := step_logged actor g ev in
      let '(g2, calls2) := run_logged actor g1 rest in
      (g2, calls1 ++ calls2)
  end.

(** The calls of [RefreshAccessToken] the goroutine makes while it
    receives [evs], by their number, and how many they are. *)
Definition calls_during (actor : Actor) (g : goroutine) (evs : list event)
  : list nat :=
  snd (run_logged actor g evs).

Definition refreshes_during (actor : Actor) (g : goroutine) (evs : list event)
  : nat :=
  List.length (calls_during actor g evs).

(** The ticks among the events received. *)
Fixpoint ticks (evs : list event) : nat :=
  match evs with
  | [] => O
  | Tick :: rest => S (ticks rest)
  | Quit :: rest => ticks rest
  end.

(** A platform that always refreshes, with a token that expires [e]
    nanoseconds after [Now] and comes without the "bearer " prefix. *)
Definition bare_actor (e : Duration) : Actor :=
  {| RefreshAccessToken := fun _ => inl "tok";
     ParseJWT := fun s =>
       if String.eqb s "tok" then inl {| Expiration := Some e |}
       else inr (Err "not a compact JWS");
     Now := 0 |}.

Definition prefixed_actor (e : Duration) : Actor :=
  {| RefreshAccessToken := fun _ => inl "bearer tok";
     ParseJWT := ParseJWT (bare_actor e);
     Now := 0 |}.

End RefreshCount.

(** ** The fake log-cache over a sequence of requests *)

Module MockRun.

Import Mock.

(** The query string of the seek query, as the handler spells it. *)
Definition seekRawQuery : string :=
  ("descending=true&limit=1&start_time="
     ++ Strconv.FormatInt GoTime.zero_UnixNano)%string.

(** The handler over the requests [qs], in order: the replies and the
    value of [returnEmptyEnvelope] afterwards. *)
Fixpoint handle_all (returnEmptyEnvelope : bool) (qs : list string)
  : list reply * bool :=
  match qs with
  | [] => ([], returnEmptyEnvelope)
  | q :: rest =>
      let '(r, st) := handler returnEmptyEnvelope q in
      let '(rs, st') := handle_all st rest in
      (r :: rs, st')
  end.

End MockRun.

(* ================================================================== *)
(** * Part II: theorems                                                *)
(* ================================================================== *)

(** ** Token refresh scheduler *)

Section TokenRefreshFacts.

Import TokenRefresh.

Lemma wrap_small (z : Z) : Int64.in_range z -> Int64.wrap z = z.
Proof.
  unfold Int64.in_range, Int64.wrap, Int64.min_int, Int64.max_int.
  intros H. rewrite Z.mod_small; lia.
Qed.

Lemma saturate_in_range (z : Z) : Int64.in_range (Int64.saturate z).
Proof.
  unfold Int64.saturate, Int64.in_range.
  destruct (Z.ltb_spec z Int64.min_int); [unfold Int64.min_int, Int64.max_int; lia|].
  destruct (Z.ltb_spec Int64.max_int z); unfold Int64.min_int, Int64.max_int in *; lia.
Qed.

Lemma saturate_small (z : Z) : Int64.in_range z -> Int64.saturate z = z.
Proof.
  unfold Int64.saturate, Int64.in_range. intros H.
  destruct (Z.ltb_spec z Int64.min_int); [lia|].
  destruct (Z.ltb_spec Int64.max_int z); lia.
Qed.

(** Below the overflow threshold the int64 computation is the exact
    integer quotient. *)
Lemma timeToRefresh_exact (e : Duration) :
  0 <= e <= Int64.max_int / 9 -> timeToRefresh e = e * 9 / 10.
Proof.
  intros H. unfold timeToRefresh, Int64.quot, Int64.mul.
  assert (Hmax : Int64.max_int / 9 = 1024819115206086200) by reflexivity.
  rewrite Hmax in H.
  rewrite (wrap_small (e * 9)).
  - rewrite Z.quot_div_nonneg by lia.
    apply wrap_small. unfold Int64.in_range, Int64.min_int, Int64.max_int.
    assert (0 <= e * 9 / 10) by (apply Z.div_pos; lia).
    assert (e * 9 / 10 <= e * 9) by (apply Z.div_le_upper_bound; lia).
    lia.
  - unfold Int64.in_range, Int64.min_int, Int64.max_int. lia.
Qed.

Lemma run_Returned (actor : Actor) (evs : list event) :
  run actor Returned evs = Returned.
Proof. induction evs as [|ev evs IH]; simpl; auto. Qed.

Lemma run_Panicked (actor : Actor) (e : error) (evs : list event) :
  run actor (Panicked e) evs = Panicked e.
Proof. induction evs as [|ev evs IH]; simpl; auto. Qed.

Lemma run_cons (actor : Actor) (g : goroutine) (ev : event) (evs : list event) :
  run actor g (ev :: evs) = run actor (step actor g ev) evs.
Proof. reflexivity. Qed.

(** A goroutine that is still looping after [evs] has seen only ticks,
    answered each of them by one successful refresh, and selects on the
    ticker it started with. *)
Lemma run_Looping_inv (actor : Actor) (evs : list event) :
  forall tk n tk' n',
    run actor (Looping tk n) evs = Looping tk' n' ->
    tk' = tk /\ n' = (n + List.length evs)%nat /\
    Forall (fun ev => ev = Tick) evs /\
    (forall k, (n <= k < n')%nat -> exists s, RefreshAccessToken actor k = inl s).
Proof.
  induction evs as [|ev evs IH]; intros tk n tk' n' Hrun.
  - simpl in Hrun. injection Hrun as <- <-.
    split; [reflexivity|]. split; [simpl; lia|].
    split; [constructor|]. intros k Hk. lia.
  - rewrite run_cons in Hrun. destruct ev; simpl in Hrun.
    + destruct (RefreshAccessToken actor n) as [s|e] eqn:Hn.
      * apply IH in Hrun. destruct Hrun as (-> & -> & Hall & Hcalls).
        split; [reflexivity|]. split; [simpl; lia|].
        split; [constructor; auto|].
        intros k Hk. destruct (Nat.eq_dec k n) as [->|Hne].
        -- exists s. exact Hn.
        -- apply Hcalls. lia.
      * rewrite run_Panicked in Hrun. discriminate.
    + rewrite run_Returned in Hrun. discriminate.
Qed.

(** C2, as the code has it.  On a tick the goroutine calls
    [RefreshAccessToken] once and drops the token it returns; nothing is
    decoded and nothing is rescheduled, so a goroutine that is still
    looping selects on the very ticker it was started with, whatever
    expiry the refreshed tokens carry. *)
Theorem tick_refreshes_without_rescheduling
  (actor : Actor) (evs : list event) (tk tk' : ticker) (n n' : nat) :
  run actor (Looping tk n) evs = Looping tk' n' ->
  tk' = tk /\
  n' = (n + List.length evs)%nat /\
  Forall (fun ev => ev = Tick) evs /\
  (forall k, (n <= k < n')%nat -> exists s, RefreshAccessToken actor k = inl s).
Proof. apply run_Looping_inv. Qed.

Lemma tick_refreshes_without_rescheduling_witness :
  run sample_actor (Looping (OwnTicker (900 * Second)) 1) [Tick]
    = Looping (OwnTicker (900 * Second)) 2 /\
  (OwnTicker (900 * Second) = OwnTicker (900 * Second) /\
   2%nat = (1 + List.length [Tick])%nat /\
   Forall (fun ev => ev = Tick) [Tick] /\
   (forall k, (1 <= k < 2)%nat ->
      exists s, RefreshAccessToken sample_actor k = inl s)).
Proof.
  split; [reflexivity|].
  apply (tick_refreshes_without_rescheduling sample_actor [Tick]).
  reflexivity.
Defined.

(** C2, as the specification words it, fails: after the first tick the
    refreshed token of [sample_actor] has 2000 s left, which would ask for
    a delay of 1800 s, while the ticker keeps its period of 900 s. *)
Lemma tick_does_not_reschedule :
  background (ScheduleTokenRefresh sample_actor NilChan)
    = Some (Looping (OwnTicker (900 * Second)) 1) /\
  rescheduled_delay sample_actor (900 * Second) 1 = Some (1800 * Second) /\
  period_of (step sample_actor (Looping (OwnTicker (900 * Second)) 1) Tick)
    = Some (900 * Second) /\
  ~ (forall (actor : Actor) (d d' : Duration) (now : Time) (n : nat),
       rescheduled_delay actor now n = Some d' ->
       period_of (step actor (Looping (OwnTicker d) n) Tick) = Some d').
Proof.
  split; [reflexivity|]. split; [reflexivity|]. split; [reflexivity|].
  intros H.
  specialize (H sample_actor (900 * Second) (1800 * Second) (900 * Second) 1%nat
                eq_refl).
  vm_compute in H. discriminate.
Qed.

(** C3, as the code has it.  A refresh that fails inside the loop is not
    swallowed: the goroutine panics with that very error.  The panic is
    not recovered, so the process is terminated, and nothing the scheduler
    receives afterwards changes that. *)
Theorem refresh_failure_panics
  (actor : Actor) (tk : ticker) (n : nat) (e : error) (evs : list event) :
  RefreshAccessToken actor n = inr e ->
  step actor (Looping tk n) Tick = Panicked e /\
  process_terminated (step actor (Looping tk n) Tick) = true /\
  run actor (Looping tk n) (Tick :: evs) = Panicked e.
Proof.
  intros H. rewrite run_cons. simpl. rewrite H. simpl.
  rewrite run_Panicked. auto.
Qed.

Lemma refresh_failure_panics_witness :
  RefreshAccessToken sample_actor 2 = inr (Err "invalid_grant") /\
  (step sample_actor (Looping SuppliedTicker 2) Tick
     = Panicked (Err "invalid_grant") /\
   process_terminated (step sample_actor (Looping SuppliedTicker 2) Tick)
     = true /\
   run sample_actor (Looping SuppliedTicker 2) [Tick; Quit]
     = Panicked (Err "invalid_grant")).
Proof.
  split; [reflexivity|].
  apply (refresh_failure_panics sample_actor SuppliedTicker 2
           (Err "invalid_grant") [Quit]).
  reflexivity.
Defined.

(** C3, as the specification words it, fails: the third refresh of
    [sample_actor] is refused, and the goroutine neither returns nor
    leaves the process alive. *)
Lemma refresh_failure_terminates_process :
  run sample_actor (Looping SuppliedTicker 1) [Tick; Tick]
    = Panicked (Err "invalid_grant") /\
  ~ (forall (actor : Actor) (tk : ticker) (n : nat) (e : error),
       RefreshAccessToken actor n = inr e ->
       process_terminated (step actor (Looping tk n) Tick) = false).
Proof.
  split; [reflexivity|].
  intros H.
  specialize (H sample_actor SuppliedTicker 2%nat (Err "invalid_grant") eq_refl).
  discriminate.
Qed.

(** C4.  The delay is not 90% of the remaining time for every token.
    With forty years left, a remaining time that [time.Duration] holds,
    [expiresIn * 9] overflows [int64] before the division: the delay
    computed is negative instead of thirty-six years, and
    [time.NewTicker] panics in the goroutine. *)
Lemma timeToRefresh_wraps_around :
  Int64.in_range forty_years /\
  timeToRefresh forty_years = -709378407370955161 /\
  background (ScheduleTokenRefresh (actor_expiring_in forty_years) NilChan)
    = Some (Panicked NewTicker_panic) /\
  ~ (forall E : Duration,
       0 <= E <= Int64.max_int ->
       0 <= 9 * E - 10 * timeToRefresh E < 10).
Proof.
  split; [vm_compute; split; discriminate|].
  split; [reflexivity|]. split; [reflexivity|].
  intros H. specialize (H forty_years).
  vm_compute in H.
  destruct H as [_ H]; [split; discriminate|]. discriminate.
Qed.

(** C8.  A refreshed token without a decodable expiry makes
    [ScheduleTokenRefresh] return a nil channel and the error
    "Failed to get an expiry time from the current access token"; no
    goroutine is started and the refresh is not attempted again. *)
Theorem no_expiry_is_fatal
  (actor : Actor) (tickerChan : ticker_chan) (s : string) (token : JWT) :
  RefreshAccessToken actor 0 = inl s ->
  ParseJWT actor (TrimPrefix s "bearer ") = inl token ->
  Expiration token = None ->
  ScheduleTokenRefresh actor tickerChan =
    {| quit := false;
       err := Some (Err "Failed to get an expiry time from the current access token");
       background := None;
       refreshes := 1 |}.
Proof.
  intros Hr Hp He. unfold ScheduleTokenRefresh. rewrite Hr, Hp, He.
  reflexivity.
Qed.

Lemma no_expiry_is_fatal_witness :
  ScheduleTokenRefresh noexp_actor NilChan =
    {| quit := false;
       err := Some (Err "Failed to get an expiry time from the current access token");
       background := None;
       refreshes := 1 |}.
Proof.
  exact (no_expiry_is_fatal noexp_actor NilChan "bearer noexp"
           {| Expiration := None |} eq_refl eq_refl eq_refl).
Defined.

End TokenRefreshFacts.

(** ** Relationship: marshal, then unmarshal *)

Section RelationshipFacts.

Import Relationship.

(** On valid UTF-8 the coercion of encoding/json changes nothing. *)
Lemma to_valid_from_fixes (s : string) :
  forall skip, Utf8.valid_from skip s = true -> Utf8.to_valid_from skip s = s.
Proof.
  induction s as [|b rest IH]; intros skip Hv; [reflexivity|].
  destruct skip as [|k].
  - cbn [Utf8.valid_from] in Hv. cbn [Utf8.to_valid_from].
    destruct (Utf8.rune_size (String b rest)) as [n|]; [|discriminate].
    f_equal. apply IH. exact Hv.
  - cbn [Utf8.valid_from] in Hv. cbn [Utf8.to_valid_from].
    f_equal. apply IH. exact Hv.
Qed.

(** Every replaced byte makes the text two bytes longer. *)
Lemma to_valid_from_length (s : string) :
  forall skip,
    (String.length s <= String.length (Utf8.to_valid_from skip s))%nat /\
    (Utf8.valid_from skip s = false ->
     String.length s < String.length (Utf8.to_valid_from skip s))%nat.
Proof.
  induction s as [|b rest IH]; intros skip.
  - split; [apply Nat.le_refl|discriminate].
  - destruct skip as [|k].
    + cbn [Utf8.valid_from Utf8.to_valid_from].
      destruct (Utf8.rune_size (String b rest)) as [n|].
      * destruct (IH (Nat.pred n)) as [Hle Hlt]. cbn [String.length].
        split; [lia|]. intros Hf. specialize (Hlt Hf). lia.
      * destruct (IH 0%nat) as [Hle _].
        unfold Utf8.replacement. cbn [String.append String.length].
        split; [lia|]. intros _. lia.
    + cbn [Utf8.valid_from Utf8.to_valid_from String.length].
      destruct (IH k) as [Hle Hlt].
      split; [lia|]. intros Hf. specialize (Hlt Hf). lia.
Qed.

Lemma ToValid_fixed_iff (s : string) :
  Utf8.ToValid s = s <-> Utf8.ValidString s = true.
Proof.
  unfold Utf8.ToValid, Utf8.ValidString. split.
  - intros Heq. destruct (Utf8.valid_from 0 s) eqn:Hv; [reflexivity|].
    destruct (to_valid_from_length s 0) as [_ Hlt].
    specialize (Hlt Hv). rewrite Heq in Hlt. lia.
  - apply to_valid_from_fixes.
Qed.

(** What unmarshalling the marshalled [r] yields, for every [r]: the GUID
    coerced to valid UTF-8. *)
Lemma round_trip_coerces (r0 r : Relationship) :
  round_trip r0 r = ({| GUID := Utf8.ToValid (GUID r) |}, None).
Proof.
  destruct r as [g]. unfold round_trip, MarshalJSON. cbn [GUID].
  destruct (String.eqb_spec g "") as [->|Hne]; reflexivity.
Qed.

(** C9, for GUIDs that are valid UTF-8.  Unmarshalling the JSON produced
    by marshalling [r] yields [r] again, without error, whatever the
    receiver held before; the empty GUID marshals to an object whose
    [data] member is [null], and that object unmarshals to the empty
    GUID. *)
Theorem relationship_round_trip (r0 r : Relationship) :
  Utf8.ValidString (GUID r) = true ->
  round_trip r0 r = (r, None) /\
  MarshalJSON {| GUID := "" |} = inl (Json.Object [("data", Json.Null)]) /\
  UnmarshalJSON r0 (Json.Object [("data", Json.Null)])
    = ({| GUID := "" |}, None).
Proof.
  intros Hv. split; [|split; reflexivity].
  rewrite round_trip_coerces.
  apply ToValid_fixed_iff in Hv. rewrite Hv. destruct r; reflexivity.
Qed.

Lemma relationship_round_trip_witness :
  Utf8.ValidString "some-droplet-guid" = true /\
  round_trip {| GUID := "stale" |} {| GUID := "some-droplet-guid" |}
    = ({| GUID := "some-droplet-guid" |}, None).
Proof.
  split; [reflexivity|].
  apply (relationship_round_trip {| GUID := "stale" |}
           {| GUID := "some-droplet-guid" |}).
  reflexivity.
Defined.

(** The round trip succeeds exactly on the valid UTF-8 GUIDs. *)
Lemma relationship_round_trip_iff (r0 r : Relationship) :
  round_trip r0 r = (r, None) <-> Utf8.ValidString (GUID r) = true.
Proof.
  rewrite round_trip_coerces. rewrite <- ToValid_fixed_iff.
  destruct r as [g]. cbn [GUID]. split.
  - intros H. injection H as H. exact H.
  - intros ->. reflexivity.
Qed.

(** C9, for every Relationship, fails: the GUID made of the byte FF is
    written as U+FFFD and comes back as the three bytes EF BF BD. *)
Lemma round_trip_replaces_invalid_bytes :
  MarshalJSON {| GUID := byte_ff |}
    = inl (Json.Object
             [("data", Json.Object [("guid", Json.Str Utf8.replacement)])]) /\
  round_trip {| GUID := "" |} {| GUID := byte_ff |}
    = ({| GUID := Utf8.replacement |}, None) /\
  ~ (forall r0 r : Relationship, round_trip r0 r = (r, None)).
Proof.
  split; [reflexivity|]. split; [reflexivity|].
  intros H. specialize (H {| GUID := "" |} {| GUID := byte_ff |}).
  vm_compute in H. discriminate.
Qed.

End RelationshipFacts.

(** ** RealRequester.MakeRequest *)

Section RequesterFacts.

Import Requester.

Context {any request remote : Type}.
Variable json_Marshal : any -> string + error.

(** One exchange adds its request to the log and hands back what the
    connection produced. *)
Lemma Make_spec (client : Client any request remote) (req : request)
  (response : Response any) (w : World request remote) :
  Make client req response w =
    (fst (Connection_Make client req response (server w)),
     {| exchanges := exchanges w ++ [req];
        server := snd (Connection_Make client req response (server w)) |}).
Proof.
  unfold Make. destruct (Connection_Make client req response (server w)).
  reflexivity.
Qed.

(** A request that cannot be marshalled or built is never sent. *)
Lemma MakeRequest_early_return (client : Client any request remote)
  (p : requestParams any) (w : World request remote) (e : error) :
  marshal_body json_Marshal p = inr e \/
  (exists body, marshal_body json_Marshal p = inl body /\
                NewHTTPRequest client (options_of p body) = inr e) ->
  MakeRequest json_Marshal client p w = (("", [], Some e), w).
Proof.
  unfold MakeRequest. intros [H | (body & Hb & Hn)].
  - rewrite H. reflexivity.
  - rewrite Hb, Hn. reflexivity.
Qed.

(** C10, for the calls that reach the connection.  When the body marshals
    and the request [req] is built, [MakeRequest] performs two exchanges
    with [req], each on a fresh response: [first], then [second] against
    the far end as [first] left it.  The job URL, the warnings and the
    error returned are those of [second]; of [first] only the state of the
    far end survives. *)
Theorem MakeRequest_exchanges_twice (client : Client any request remote)
  (p : requestParams any) (w : World request remote)
  (body : option string) (req : request) :
  marshal_body json_Marshal p = inl body ->
  NewHTTPRequest client (options_of p body) = inl req ->
  let first := Connection_Make client req (new_response p) (server w) in
  let second := Connection_Make client req (new_response p) (snd first) in
  MakeRequest json_Marshal client p w =
    ((ResourceLocationURL (fst (fst second)),
      ResponseWarnings (fst (fst second)),
      snd (fst second)),
     {| exchanges := exchanges w ++ [req; req]; server := snd second |}).
Proof.
  intros Hb Hn first second. unfold MakeRequest. rewrite Hb, Hn.
  rewrite Make_spec. unfold GetSingleResponse. rewrite Make_spec.
  cbn [exchanges server]. fold first. fold second.
  destruct second as [[response err] far]. cbn [fst snd].
  rewrite <- app_assoc. reflexivity.
Qed.

End RequesterFacts.

Section RequesterExamples.

Import Requester.

Lemma MakeRequest_exchanges_twice_witness :
  MakeRequest (fun s : string => inl s) flaky_client delete_app fresh_world =
    (("/v3/jobs/some-job", ["second-warning"], None),
     {| exchanges := [options_of delete_app None; options_of delete_app None];
        server := 2%nat |}).
Proof.
  exact (MakeRequest_exchanges_twice (fun s : string => inl s) flaky_client
           delete_app fresh_world None (options_of delete_app None)
           eq_refl eq_refl).
Defined.

(** C10, for every call, fails: when [NewHTTPRequest] returns an error,
    [MakeRequest] returns it at once and no exchange takes place. *)
Lemma MakeRequest_unbuilt_request_is_not_sent :
  MakeRequest (fun s : string => inl s) unroutable_client delete_app fresh_world
    = (("", [], Some (Err "no route for this request name")), fresh_world) /\
  ~ (forall (client : Client string requestOptions nat)
            (p : requestParams string) (w : World requestOptions nat),
       List.length (exchanges (snd (MakeRequest (fun s => inl s) client p w)))
         = (List.length (exchanges w) + 2)%nat).
Proof.
  split; [reflexivity|].
  intros H. specialize (H unroutable_client delete_app fresh_world).
  vm_compute in H. discriminate.
Qed.

End RequesterExamples.

(** ** Base64 and decimal strings *)

Section Base64Facts.

Import Base64.

Lemma below_64_cases (P : N -> Prop) :
  (forall k, (k < 64)%nat -> P (N.of_nat k)) -> forall n, (n < 64)%N -> P n.
Proof.
  intros H n Hn. rewrite <- (N2Nat.id n). apply H. lia.
Qed.

Lemma sextets_ok : forallb sextet_ok (seq 0 64) = true.
Proof. vm_compute. reflexivity. Qed.

Lemma value_of_char_of (n : N) :
  (n < 64)%N -> value_of (char_of n) = Some n /\ Ascii.eqb (char_of n) pad = false.
Proof.
  revert n. apply below_64_cases. intros k Hk.
  pose proof sextets_ok as H. rewrite forallb_forall in H.
  specialize (H k). unfold sextet_ok in H.
  assert (Hin : In k (seq 0 64)) by (apply in_seq; lia).
  specialize (H Hin).
  destruct (value_of (char_of (N.of_nat k))) as [m|]; [|discriminate].
  apply andb_true_iff in H. destruct H as [H1 H2].
  apply N.eqb_eq in H1. subst m. split; [reflexivity|].
  destruct (Ascii.eqb (char_of (N.of_nat k)) pad); [discriminate|reflexivity].
Qed.

Lemma byte_N_of_ascii (a : ascii) (n : N) : n = N_of_ascii a -> byte n = a.
Proof. intros ->. apply ascii_N_embedding. Qed.

Lemma dec4_enc3 (a b c : ascii) :
  exists w x y z,
    enc3 a b c = String w (String x (String y (String z EmptyString))) /\
    Ascii.eqb z pad = false /\
    dec4 w x y z = Some (String a (String b (String c EmptyString))).
Proof.
  unfold enc3.
  pose proof (N_ascii_bounded a) as Ha.
  pose proof (N_ascii_bounded b) as Hb.
  pose proof (N_ascii_bounded c) as Hc.
  set (x := N_of_ascii a) in *. set (y := N_of_ascii b) in *.
  set (z := N_of_ascii c) in *.
  do 4 eexists. split; [reflexivity|].
  destruct (value_of_char_of (x / 4)) as [E1 _]; [sextet_arith|].
  destruct (value_of_char_of (x mod 4 * 16 + y / 16)) as [E2 _]; [sextet_arith|].
  destruct (value_of_char_of (y mod 16 * 4 + z / 64)) as [E3 _]; [sextet_arith|].
  destruct (value_of_char_of (z mod 64)) as [E4 P4]; [sextet_arith|].
  split; [exact P4|].
  unfold dec4. rewrite E1, E2, E3, E4.
  repeat f_equal; apply byte_N_of_ascii; subst x y z; sextet_arith.
Qed.

Lemma dec3_enc2 (a b : ascii) :
  exists w x y,
    enc2 a b = String w (String x (String y (String pad EmptyString))) /\
    Ascii.eqb y pad = false /\
    dec3 w x y = Some (String a (String b EmptyString)).
Proof.
  unfold enc2.
  pose proof (N_ascii_bounded a) as Ha.
  pose proof (N_ascii_bounded b) as Hb.
  set (x := N_of_ascii a) in *. set (y := N_of_ascii b) in *.
  do 3 eexists. split; [reflexivity|].
  destruct (value_of_char_of (x / 4)) as [E1 _]; [sextet_arith|].
  destruct (value_of_char_of (x mod 4 * 16 + y / 16)) as [E2 _]; [sextet_arith|].
  destruct (value_of_char_of (y mod 16 * 4)) as [E3 P3]; [sextet_arith|].
  split; [exact P3|].
  unfold dec3. rewrite E1, E2, E3.
  repeat f_equal; apply byte_N_of_ascii; subst x y; sextet_arith.
Qed.

Lemma dec2_enc1 (a : ascii) :
  exists w x,
    enc1 a = String w (String x (String pad (String pad EmptyString))) /\
    dec2 w x = Some (String a EmptyString).
Proof.
  unfold enc1.
  pose proof (N_ascii_bounded a) as Ha.
  set (x := N_of_ascii a) in *.
  do 2 eexists. split; [reflexivity|].
  destruct (value_of_char_of (x / 4)) as [E1 _]; [sextet_arith|].
  destruct (value_of_char_of (x mod 4 * 16)) as [E2 _]; [sextet_arith|].
  unfold dec2. rewrite E1, E2.
  repeat f_equal; apply byte_N_of_ascii; subst x; sextet_arith.
Qed.

(** Strings three bytes at a time. *)
Lemma string_ind3 (P : string -> Prop) :
  P EmptyString ->
  (forall a, P (String a EmptyString)) ->
  (forall a b, P (String a (String b EmptyString))) ->
  (forall a b c r, P r -> P (String a (String b (String c r)))) ->
  forall s, P s.
Proof.
  intros H0 H1 H2 H3.
  assert (Hall : forall n s, (String.length s <= n)%nat -> P s).
  { induction n as [|n IH]; intros s Hs.
    - destruct s; [exact H0|simpl in Hs; lia].
    - destruct s as [|a [|b [|c r]]]; auto.
      apply H3. apply IH. simpl in Hs. lia. }
  intros s. apply (Hall (String.length s)). apply Nat.le_refl.
Qed.

Lemma EncodeToString_empty (s : string) :
  EncodeToString s = EmptyString -> s = EmptyString.
Proof.
  destruct s as [|a [|b [|c r]]]; [reflexivity|discriminate..].
Qed.

(** Decoding undoes [EncodeToString]. *)
Lemma DecodeString_EncodeToString (src : string) :
  DecodeString (EncodeToString src) = Some src.
Proof.
  induction src as [|a|a b|a b c r IH] using string_ind3.
  - reflexivity.
  - cbn [EncodeToString]. destruct (dec2_enc1 a) as (w & x & -> & Hd).
    cbn [DecodeString]. rewrite Ascii.eqb_refl. exact Hd.
  - cbn [EncodeToString]. destruct (dec3_enc2 a b) as (w & x & y & -> & Hp & Hd).
    cbn [DecodeString]. rewrite Ascii.eqb_refl, Hp. exact Hd.
  - cbn [EncodeToString].
    destruct (dec4_enc3 a b c) as (w & x & y & z & -> & Hp & Hd).
    cbn [String.append DecodeString].
    destruct (EncodeToString r) as [|h t] eqn:Er.
    + apply EncodeToString_empty in Er. subst r.
      rewrite Hp. exact Hd.
    + rewrite Hd, IH. reflexivity.
Qed.

Example hello_encoded :
  EncodeToString "hello from log-cache" = "aGVsbG8gZnJvbSBsb2ctY2FjaGU=".
Proof. reflexivity. Qed.

End Base64Facts.

Section StrconvFacts.

(** A formatted integer reads back as itself. *)
Lemma ParseInt_FormatInt (z : Z) :
  Strconv.ParseInt (Strconv.FormatInt z) = Some z.
Proof.
  unfold Strconv.ParseInt, Strconv.FormatInt.
  rewrite NilZero.isi.
  - cbn [option_map]. rewrite DecimalZ.of_to. reflexivity.
  - destruct z as [|p|p]; cbn [Z.to_int]; try discriminate.
    intros H. injection H as H. exact (Unsigned.to_uint_nonnil p H).
  - destruct z as [|p|p]; cbn [Z.to_int]; try discriminate.
    intros H. injection H as H. exact (Unsigned.to_uint_nonnil p H).
Qed.

End StrconvFacts.

(** ** The log tail engine *)

Section TailFacts.

Import LogCache Tail.

Variable store : Type.
Variable serve : store -> string -> response * store.

Lemma emit_follows (batch : list Envelope) :
  forall c tr,
    follows_cursor (snd (emit c batch)) tr ->
    follows_cursor c (fst (emit c batch) ++ tr).
Proof.
  induction batch as [|e rest IH]; intros c tr H; [exact H|].
  cbn [emit] in *. destruct (Z.ltb_spec c (timestamp e)) as [Hlt|Hge].
  - destruct (emit (timestamp e) rest) as [evs c'] eqn:E.
    cbn [fst snd app follows_cursor] in *. split; [exact Hlt|].
    specialize (IH (timestamp e) tr). rewrite E in IH. apply IH. exact H.
  - apply IH. exact H.
Qed.

(** The Poll Loop keeps to the Cursor, whatever the store answers. *)
Lemma poll_follows_cursor (fuel : nat) :
  forall c s, follows_cursor c (poll store serve fuel c s).
Proof.
  induction fuel as [|n IH]; intros c s; [exact I|].
  cbn [poll follows_cursor]. split; [reflexivity|].
  destruct (fetch store serve (poll_query c) s) as [[batch|err] s'].
  - destruct batch as [|e rest].
    + cbn [follows_cursor]. apply IH.
    + pose proof (emit_follows (e :: rest) c (poll store serve n (snd (emit c (e :: rest))) s')) as H.
      destruct (emit c (e :: rest)) as [evs c']. apply H. apply IH.
  - exact I.
Qed.

Lemma follows_cursor_last (tr : list event) :
  forall c last,
    (forall x, last = Some x -> x = c) ->
    follows_cursor c tr -> follows_last last tr.
Proof.
  induction tr as [|ev tr IH]; intros c last Hl H; [exact I|].
  destruct ev; cbn [follows_cursor follows_last] in *.
  - destruct H as [Hq H]. split.
    + intros x Hx. rewrite (Hl x Hx). exact Hq.
    + apply (IH c); assumption.
  - apply (IH c); assumption.
  - destruct H as [He H]. split.
    + intros x Hx. rewrite (Hl x Hx). exact He.
    + apply (IH (timestamp e)); [|exact H]. intros x Hx. injection Hx as <-. reflexivity.
  - apply (IH c); assumption.
  - apply (IH c); assumption.
Qed.

Lemma seek_emits_nothing (fuel : nat) :
  forall s, Forall (fun ev => ev = Queried seek_query \/ ev = Waited SeekRetryDelay)
                   (fst (fst (fst (seek store serve fuel s)))).
Proof.
  induction fuel as [|n IH]; intros s; [constructor|].
  cbn [seek]. destruct (fetch store serve seek_query s) as [[batch|err] s'].
  - destruct batch as [|e rest].
    + specialize (IH s'). destruct (seek store serve n s') as [[[evs out] s''] m].
      cbn [fst] in *.
      constructor; [left; reflexivity|].
      constructor; [right; reflexivity|exact IH].
    + cbn [fst]. constructor; [left; reflexivity|constructor].
  - cbn [fst]. constructor; [left; reflexivity|constructor].
Qed.

Lemma emitted_app (l1 l2 : list event) :
  emitted (l1 ++ l2) = emitted l1 ++ emitted l2.
Proof.
  induction l1 as [|ev l1 IH]; [reflexivity|].
  destruct ev; cbn [app emitted]; rewrite IH; reflexivity.
Qed.

Lemma last_emitted_cons (ev : event) (tr : list event) :
  last_emitted (ev :: tr) =
    match last_emitted tr with
    | Some x => Some x
    | None =>
        match ev with
        | Emitted e => Some (timestamp e)
        | _ => None
        end
    end.
Proof.
  unfold last_emitted.
  destruct ev; cbn [emitted]; try (destruct (rev (emitted tr)); reflexivity).
  cbn [rev]. destruct (rev (emitted tr)); reflexivity.
Qed.

(** The Cursor after the prefix [pre] of a trace that started with [last]. *)
Lemma follows_last_after (pre : list event) :
  forall last tr,
    follows_last last (pre ++ tr) ->
    follows_last
      (match last_emitted pre with Some x => Some x | None => last end) tr.
Proof.
  induction pre as [|ev pre IH]; intros last tr H; [exact H|].
  rewrite last_emitted_cons.
  destruct ev; cbn [app follows_last] in H.
  - destruct H as [_ H]. apply IH in H.
    destruct (last_emitted pre); exact H.
  - apply IH in H. destruct (last_emitted pre); exact H.
  - destruct H as [_ H]. apply IH in H.
    destruct (last_emitted pre); exact H.
  - apply IH in H. destruct (last_emitted pre); exact H.
  - apply IH in H. destruct (last_emitted pre); exact H.
Qed.

Lemma follows_last_seek (evs tr : list event) :
  Forall (fun ev => ev = Queried seek_query \/ ev = Waited SeekRetryDelay) evs ->
  follows_last None tr -> follows_last None (evs ++ tr).
Proof.
  induction 1 as [|ev evs [-> | ->] _ IH]; intros H; [exact H| |].
  - cbn [app follows_last]. split; [discriminate|]. apply IH. exact H.
  - cbn [app follows_last]. apply IH. exact H.
Qed.

Lemma emitted_seek (evs : list event) :
  Forall (fun ev => ev = Queried seek_query \/ ev = Waited SeekRetryDelay) evs ->
  emitted evs = [].
Proof.
  induction 1 as [|ev evs [-> | ->] _ IH]; [reflexivity| |]; exact IH.
Qed.

(** The timestamps emitted along a trace that keeps to the Cursor grow
    strictly, and all lie above the Cursor it started from. *)
Lemma follows_cursor_sorted (tr : list event) :
  forall c,
    follows_cursor c tr ->
    Forall (fun t => c < t) (map timestamp (emitted tr)) /\
    StronglySorted Z.lt (map timestamp (emitted tr)).
Proof.
  induction tr as [|ev tr IH]; intros c H.
  - split; constructor.
  - destruct ev; cbn [follows_cursor emitted] in *;
      try (apply IH; tauto).
    destruct H as [Hlt H]. destruct (IH _ H) as [Hall Hs].
    cbn [map]. split.
    + constructor; [exact Hlt|].
      eapply Forall_impl; [|exact Hall]. cbn. intros t Ht. lia.
    + constructor; assumption.
Qed.

Lemma sorted_NoDup (l : list Z) : StronglySorted Z.lt l -> NoDup l.
Proof.
  induction 1 as [|x l Hs IH Hall]; constructor; [|exact IH].
  intros Hin. rewrite Forall_forall in Hall. specialize (Hall x Hin). lia.
Qed.

Lemma tail_follows_last (fuel : nat) (s : store) :
  follows_last None (tail store serve fuel s).
Proof.
  unfold tail. pose proof (seek_emits_nothing fuel s) as Hs.
  destruct (seek store serve fuel s) as [[[evs out] s'] n]. cbn [fst] in Hs.
  apply follows_last_seek; [exact Hs|].
  destruct out as [T|err|].
  - apply (follows_cursor_last _ (initial_cursor T)); [discriminate|].
    apply poll_follows_cursor.
  - cbn. exact I.
  - cbn. exact I.
Qed.

Lemma tail_sorted (fuel : nat) (s : store) :
  StronglySorted Z.lt (map timestamp (emitted (tail store serve fuel s))).
Proof.
  unfold tail. pose proof (seek_emits_nothing fuel s) as Hs.
  destruct (seek store serve fuel s) as [[[evs out] s'] n]. cbn [fst] in Hs.
  rewrite emitted_app, (emitted_seek evs Hs). cbn [app].
  destruct out as [T|err|].
  - apply (follows_cursor_sorted _ (initial_cursor T)). apply poll_follows_cursor.
  - constructor.
  - constructor.
Qed.

(** C1.  In every session, whatever the store answers: a query issued
    after an emission starts one nanosecond after the Cursor, the
    timestamp of the last envelope emitted before it, hence strictly above
    it; an envelope emitted after another is strictly newer than the
    Cursor at that moment; so the emitted timestamps grow strictly and no
    envelope is delivered twice.  The last part is the same invariant on
    the state of the Poll Loop, which also covers the queries issued
    before the first emission. *)
Theorem no_duplicate_delivery (fuel : nat) (s : store) :
  let tr := tail store serve fuel s in
  (forall pre q post c,
     tr = pre ++ Queried q :: post -> last_emitted pre = Some c ->
     start_time q = c + 1 /\ c < start_time q) /\
  (forall pre e post c,
     tr = pre ++ Emitted e :: post -> last_emitted pre = Some c ->
     c < timestamp e) /\
  StronglySorted Z.lt (map timestamp (emitted tr)) /\
  NoDup (emitted tr) /\
  (forall n c s', follows_cursor c (poll store serve n c s')).
Proof.
  intros tr. pose proof (tail_follows_last fuel s) as H. fold tr in H.
  split; [|split; [|split; [|split]]].
  - intros pre q post c Heq Hc. rewrite Heq in H.
    apply follows_last_after in H. rewrite Hc in H.
    destruct H as [H _]. specialize (H c eq_refl). lia.
  - intros pre e post c Heq Hc. rewrite Heq in H.
    apply follows_last_after in H. rewrite Hc in H.
    destruct H as [H _]. exact (H c eq_refl).
  - apply tail_sorted.
  - apply (NoDup_map_inv timestamp). apply sorted_NoDup. apply tail_sorted.
  - intros n c s'. apply poll_follows_cursor.
Qed.


(** The documents of the test handler parse to the envelopes they
    describe; the payload comes out decoded. *)
Lemma parse_seek_body (T : Z) :
  parse_response (Mock.seek_body (Strconv.FormatInt T)) =
    inl [{| timestamp := T; sourceID := Mock.sourceID; tags := []; log := None |}].
Proof.
  cbn -[Strconv.FormatInt Strconv.ParseInt].
  rewrite ParseInt_FormatInt. reflexivity.
Qed.

Lemma parse_log_body (t : Z) (line : string) :
  parse_response
    (Mock.log_body (Strconv.FormatInt t) (Base64.EncodeToString line)) =
    inl [{| timestamp := t;
            sourceID := Mock.sourceID;
            tags := [("__v1_type", "LogMessage")];
            log := Some {| payload := line; outputType := "OUT" |} |}].
Proof.
  cbn -[Strconv.FormatInt Strconv.ParseInt Base64.EncodeToString Base64.DecodeString].
  rewrite ParseInt_FormatInt, DecodeString_EncodeToString. reflexivity.
Qed.

Lemma fetch_body (q : query) (s s' : store) (doc : Json.value) :
  serve s (RawQuery q) = (Body doc, s') ->
  fetch store serve q s = (parse_response doc, s').
Proof. intros H. unfold fetch. rewrite H. reflexivity. Qed.

(** C7.  When a poll query is answered by an empty batch, the loop waits
    the fixed interval and goes on with the Cursor it had: the next query,
    if the session is not cancelled during the wait, is the same query.
    Nothing is sent on the error channel. *)
Theorem empty_batch_keeps_cursor
  (fuel : nat) (cursor : Z) (s s' : store) (doc : Json.value) :
  serve s (RawQuery (poll_query cursor)) = (Body doc, s') ->
  parse_response doc = inl [] ->
  poll store serve (S fuel) cursor s =
    Queried (poll_query cursor) :: Waited EmptyBatchDelay ::
    poll store serve fuel cursor s' /\
  poll store serve (S (S fuel)) cursor s =
    Queried (poll_query cursor) :: Waited EmptyBatchDelay ::
    Queried (poll_query cursor) :: tl (poll store serve (S fuel) cursor s') /\
  poll store serve 1 cursor s =
    [Queried (poll_query cursor); Waited EmptyBatchDelay; Closed].
Proof.
  intros Hs Hp.
  assert (Hstep : forall n, poll store serve (S n) cursor s =
            Queried (poll_query cursor) :: Waited EmptyBatchDelay ::
            poll store serve n cursor s').
  { intros n. cbn [poll]. rewrite (fetch_body _ _ _ _ Hs), Hp. reflexivity. }
  split; [apply Hstep|]. split; [|apply Hstep].
  rewrite Hstep. reflexivity.
Qed.

(** An envelope that parses carries, as the payload of its log, the
    base64 decoding of the text under [log.payload], whatever the type of
    the log. *)
Lemma parse_envelope_decodes (v : Json.value) (e : Envelope) (p : string) :
  parse_envelope v = inl e ->
  TailDocs.payload_text v = Some p ->
  exists body,
    log e = Some body /\ Base64.DecodeString p = Some (payload body).
Proof.
  unfold parse_envelope, TailDocs.payload_text.
  destruct v as [| | | |items|members]; try discriminate.
  destruct (Json.member "timestamp" members) as [[| | |digits| |]|];
    try discriminate.
  destruct (Strconv.ParseInt digits) as [ts|]; [|discriminate].
  destruct (parse_string (Json.member "source_id" members)) as [src|];
    [|discriminate].
  destruct (Json.member "log" members) as [[| | | | |inner]|]; try discriminate.
  cbn [parse_log].
  destruct (Json.member "payload" inner) as [[| | |q| |]|]; try discriminate.
  cbn [parse_string].
  destruct (parse_string (Json.member "type" inner)) as [t|];
    [|discriminate].
  destruct (Base64.DecodeString q) as [bytes|] eqn:Hd; [|discriminate].
  intros [= <-] [= <-]. cbn [log]. eexists. split; [reflexivity|].
  exact Hd.
Qed.

(** Every envelope of a parsed batch is the parse of an item of the
    document. *)
Lemma parse_batch_items (items : list Json.value) :
  forall batch,
    parse_batch items = inl batch ->
    forall e, In e batch -> exists v, In v items /\ parse_envelope v = inl e.
Proof.
  induction items as [|v items IH]; intros batch Hp e Hin.
  - cbn in Hp. injection Hp as <-. contradiction.
  - cbn [parse_batch] in Hp.
    destruct (parse_envelope v) as [e0|err] eqn:Hv; [|discriminate].
    destruct (parse_batch items) as [es|err]; [|discriminate].
    injection Hp as <-. destruct Hin as [<-|Hin].
    + exists v. split; [left; reflexivity|exact Hv].
    + destruct (IH es eq_refl e Hin) as (v' & Hin' & Hv').
      exists v'. split; [right; exact Hin'|exact Hv'].
Qed.

(** What is emitted comes from the batch, and the Cursor afterwards is the
    timestamp of the last envelope emitted. *)
Lemma emit_emits_batch (batch : list Envelope) :
  forall c e, In e (emitted (fst (emit c batch))) -> In e batch.
Proof.
  induction batch as [|e0 rest IH]; intros c e Hin; [contradiction|].
  cbn [emit] in Hin. destruct (c <? timestamp e0).
  - specialize (IH (timestamp e0) e).
    destruct (emit (timestamp e0) rest) as [evs c'].
    cbn [fst emitted] in *. destruct Hin as [<-|Hin]; [left; reflexivity|].
    right. apply IH. exact Hin.
  - right. apply (IH c). exact Hin.
Qed.

Lemma emit_cursor_is_last (batch : list Envelope) :
  forall c,
    snd (emit c batch) =
      match last_emitted (fst (emit c batch)) with
      | Some ts => ts
      | None => c
      end.
Proof.
  induction batch as [|e0 rest IH]; intros c; [reflexivity|].
  cbn [emit]. destruct (c <? timestamp e0).
  - specialize (IH (timestamp e0)).
    destruct (emit (timestamp e0) rest) as [evs c'].
    cbn [fst snd] in *. rewrite last_emitted_cons.
    destruct (last_emitted evs); exact IH.
  - apply IH.
Qed.

Lemma poll_S (n : nat) (cursor : Z) (s : store) :
  poll store serve (S n) cursor s =
    Queried (poll_query cursor) ::
    match fetch store serve (poll_query cursor) s with
    | (inr err, _) => [Failed err]
    | (inl [], s') => Waited EmptyBatchDelay :: poll store serve n cursor s'
    | (inl batch, s') =>
        let '(evs, c) := emit cursor batch in evs ++ poll store serve n c s'
    end.
Proof. reflexivity. Qed.


End TailFacts.

Section SeekFacts.

Import LogCache Tail.

Lemma seek_S (store : Type) (serve : store -> string -> response * store)
  (n : nat) (s : store) :
  seek store serve (S n) s =
    match fetch store serve seek_query s with
    | (inr err, s') => ([Queried seek_query], SeekFailed err, s', n)
    | (inl [], s') =>
        let '(evs, out, s'', m) := seek store serve n s' in
        (Queried seek_query :: Waited SeekRetryDelay :: evs, out, s'', m)
    | (inl (e :: _), s') => ([Queried seek_query], Found (timestamp e), s', n)
    end.
Proof. reflexivity. Qed.

Lemma seek_events_queries (n : nat) :
  queries (seek_events n) = repeat seek_query (S n) /\
  failures (seek_events n) = [] /\
  emitted (seek_events n) = [].
Proof.
  induction n as [|n (Hq & Hf & He)]; [repeat split|].
  cbn [seek_events queries failures emitted]. rewrite Hq, Hf, He.
  repeat split.
Qed.

(** C6.  Given [N] empty seek answers and then one with an envelope, the
    Seek Stage issues [N] + 1 queries, all of them the descending limit-1
    query from the zero instant, waits the fixed delay after each empty
    answer, sends nothing on the error channel, and returns the timestamp
    of the envelope in answer [N] + 1. *)
Theorem seek_retries_until_envelope
  (empties : list Json.value) (doc : Json.value)
  (e : Envelope) (es : list Envelope) (rest : list response) (fuel : nat) :
  Forall (fun d => parse_response d = inl []) empties ->
  parse_response doc = inl (e :: es) ->
  let N := List.length empties in
  seek (list response) scripted (S (N + fuel))
       (map Body empties ++ Body doc :: rest)
    = (seek_events N, Found (timestamp e), rest, fuel) /\
  queries (seek_events N) = repeat seek_query (N + 1) /\
  failures (seek_events N) = [] /\
  seek_query = {| start_time := GoTime.zero_UnixNano; descending := true;
                  limit := Some 1; envelope_types := None |}.
Proof.
  intros Hempty Hdoc N. subst N. split.
  - induction Hempty as [|d ds Hd _ IH].
    + cbn [List.length map app Nat.add]. rewrite seek_S.
      unfold fetch, scripted. rewrite Hdoc. reflexivity.
    + cbn [List.length map app Nat.add]. rewrite seek_S.
      unfold fetch, scripted. rewrite Hd.
      fold (scripted). rewrite IH. reflexivity.
  - destruct (seek_events_queries (List.length empties)) as (Hq & Hf & _).
    rewrite Nat.add_1_r. auto.
Qed.

End SeekFacts.

(** ** The engine against the fake log-cache of the integration test *)

Section MockSession.

Import LogCache Tail.

(** "there is not yet an envelope in the log cache": the handler answers
    the first seek by [{}]; the session is cancelled after six queries. *)
Example session_with_empty_cache :
  tail bool Mock.serve 6 true =
    [Queried seek_query; Waited SeekRetryDelay; Queried seek_query;
     Queried (poll_query (mock_T - 1000000000 - 1));
     Emitted mock_envelope;
     Queried (poll_query mock_t); Waited EmptyBatchDelay;
     Queried (poll_query mock_t); Waited EmptyBatchDelay;
     Queried (poll_query mock_t); Waited EmptyBatchDelay;
     Closed].
Proof. vm_compute. reflexivity. Qed.

(** No query of that session falls into the [default] case of the
    handler. *)
Example session_queries_are_handled :
  map RawQuery (queries (tail bool Mock.serve 6 true)) =
    ["descending=true&limit=1&start_time=-6795364578871345152";
     "descending=true&limit=1&start_time=-6795364578871345152";
     "envelope_types=LOG&start_time=1581447005352020890";
     "envelope_types=LOG&start_time=1581447009352020891";
     "envelope_types=LOG&start_time=1581447009352020891";
     "envelope_types=LOG&start_time=1581447009352020891"] /\
  failures (tail bool Mock.serve 6 true) = [].
Proof. vm_compute. split; reflexivity. Qed.

Lemma no_duplicate_delivery_witness :
  NoDup (emitted (tail bool Mock.serve 6 true)).
Proof.
  exact (proj1 (proj2 (proj2 (proj2
           (no_duplicate_delivery bool Mock.serve 6 true))))).
Defined.


Lemma seek_retries_until_envelope_witness :
  seek (list response) scripted 2
       [Body Mock.empty_body; Body (Mock.seek_body Mock.latestEnvelopeTimestamp)]
    = ([Queried seek_query; Waited SeekRetryDelay; Queried seek_query],
       Found mock_T, [], 0%nat).
Proof.
  refine (proj1 (seek_retries_until_envelope [Mock.empty_body]
                   (Mock.seek_body Mock.latestEnvelopeTimestamp)
                   {| timestamp := mock_T; sourceID := Mock.sourceID;
                      tags := []; log := None |} [] [] 0 _ _)).
  - repeat constructor.
  - vm_compute. reflexivity.
Defined.

Lemma empty_batch_keeps_cursor_witness :
  poll bool Mock.serve 2 mock_t false =
    [Queried (poll_query mock_t); Waited EmptyBatchDelay;
     Queried (poll_query mock_t); Waited EmptyBatchDelay; Closed].
Proof.
  refine (eq_trans
            (proj1 (proj2 (empty_batch_keeps_cursor bool Mock.serve 0 mock_t
                             false false Mock.empty_body _ _))) _).
  - vm_compute. reflexivity.
  - reflexivity.
  - vm_compute. reflexivity.
Defined.

End MockSession.

(* ------------------------------------------------------------------ *)
(** * Further properties of the code                                   *)
(* ------------------------------------------------------------------ *)

(** ** The requester and the functions built on it *)

Section RequesterCoverage.

Import Requester RequesterList.

Context {any request remote : Type}.
Variable json_Marshal : any -> string + error.

(** X1.  [MakeRequest] performs no exchange or two, never one: either it
    returns an error with an empty job URL, no warnings and the world
    untouched, and this error is the one [json.Marshal] returned for the
    request body or the one [NewHTTPRequest] returned for the marshalled
    request; or it has sent one and the same request twice. *)
Theorem MakeRequest_none_or_two (client : Client any request remote)
  (p : requestParams any) (w : World request remote) :
  (exists e,
     ((exists b, RequestBody p = Some b /\ json_Marshal b = inr e) \/
      (exists body,
         marshal_body json_Marshal p = inl body /\
         NewHTTPRequest client (options_of p body) = inr e)) /\
     MakeRequest json_Marshal client p w = (("", [], Some e), w)) \/
  (exists body req,
     marshal_body json_Marshal p = inl body /\
     NewHTTPRequest client (options_of p body) = inl req /\
     exchanges (snd (MakeRequest json_Marshal client p w))
       = exchanges w ++ [req; req]).
Proof.
  unfold MakeRequest.
  destruct (marshal_body json_Marshal p) as [body|e] eqn:Hb.
  - destruct (NewHTTPRequest client (options_of p body)) as [req|e] eqn:Hn.
    + right. exists body, req. split; [reflexivity|]. split; [exact Hn|].
      rewrite Make_spec. unfold GetSingleResponse. rewrite Make_spec.
      cbn [exchanges server].
      destruct (Connection_Make client req (new_response p)
                  (snd (Connection_Make client req (new_response p)
                          (server w))))
        as [[response err] far].
      cbn [fst snd exchanges]. rewrite <- app_assoc. reflexivity.
    + left. exists e. split; [|reflexivity].
      right. exists body. split; [reflexivity|exact Hn].
  - left. exists e. split; [|reflexivity].
    left. unfold marshal_body in Hb.
    destruct (RequestBody p) as [b|]; [|discriminate].
    exists b. split; [reflexivity|].
    destruct (json_Marshal b) as [text|e']; [discriminate|].
    injection Hb as ->. reflexivity.
Qed.

Variable paginate :
  request -> option any -> World request remote ->
  (list any * Warnings * option error) * World request remote.

(** X2.  When the body marshals and the request is built, [MakeListRequest]
    sends the request once itself, drops what that exchange returned, its
    error included, and returns what the pagination of the same request
    returns from there. *)
Theorem MakeListRequest_sends_once_then_paginates
  (client : Client any request remote) (p : requestParams any)
  (w : World request remote) (body : option string) (req : request) :
  marshal_body json_Marshal p = inl body ->
  NewHTTPRequest client (options_of p body) = inl req ->
  MakeListRequest json_Marshal paginate client p w =
    paginate req (ResponseBody p)
      {| exchanges := exchanges w ++ [req];
         server := snd (Connection_Make client req (new_response p) (server w)) |}.
Proof.
  intros Hb Hn. unfold MakeListRequest. rewrite Hb, Hn.
  rewrite Make_spec. unfold GetListResponse.
  destruct (paginate req (ResponseBody p) _) as [[[items warnings] err] w'].
  reflexivity.
Qed.

End RequesterCoverage.

Section RequesterCoverageExamples.

Import Requester RequesterList.

Lemma MakeListRequest_sends_once_then_paginates_witness :
  MakeListRequest (fun s : string => inl s) two_pages flaky_client list_apps
    fresh_world =
    ((["app-1"; "app-2"], ["page-warning"], None),
     {| exchanges := [options_of list_apps None; options_of list_apps None;
                      options_of list_apps None];
        server := 3%nat |}).
Proof.
  exact (MakeListRequest_sends_once_then_paginates (fun s : string => inl s)
           two_pages flaky_client list_apps fresh_world None
           (options_of list_apps None) eq_refl eq_refl).
Defined.

End RequesterCoverageExamples.

Section Ccv3Coverage.

Import Requester Ccv3.

Context {any base remote : Type}.
Variable json_Marshal : any -> string + error.

(** X3.  [DeleteApplication] sends its request twice: when the request is
    built, the far end sees two exchanges with it, and the job URL, the
    warnings and the error returned are those of the second.  The body is
    nil, so nothing is marshalled. *)
Theorem DeleteApplication_sends_twice
  (DeleteApplicationRequest : string)
  (client : Client any (Request base) remote) (appGUID : string)
  (w : World (Request base) remote) (req : Request base) :
  NewHTTPRequest client
    {| optRequestName := DeleteApplicationRequest;
       optURIParams := [("app_guid", appGUID)];
       optQuery := [];
       optBody := None |} = inl req ->
  let first := Connection_Make client req zero_response (server w) in
  let second := Connection_Make client req zero_response (snd first) in
  DeleteApplication json_Marshal DeleteApplicationRequest client appGUID w =
    ((ResourceLocationURL (fst (fst second)),
      ResponseWarnings (fst (fst second)),
      snd (fst second)),
     {| exchanges := exchanges w ++ [req; req]; server := snd second |}).
Proof.
  intros Hn first second. unfold DeleteApplication, MakeRequest.
  cbn [marshal_body RequestBody]. unfold options_of.
  cbn [RequestName URIParams Queries]. rewrite Hn.
  rewrite Make_spec. unfold GetSingleResponse. rewrite Make_spec.
  cbn [exchanges server].
  change (new_response _) with (@zero_response any).
  fold first. fold second.
  destruct second as [[response err] far]. cbn [fst snd].
  rewrite <- app_assoc. reflexivity.
Qed.

Lemma Header_Set_get (h : Header) (key value : string) :
  Header_Set h key value key = [value].
Proof. unfold Header_Set. rewrite String.eqb_refl. reflexivity. Qed.

Lemma Header_Set_other (h : Header) (key value k : string) :
  k <> key -> Header_Set h key value k = h k.
Proof.
  intros Hne. unfold Header_Set.
  destruct (String.eqb_spec k key); [contradiction|reflexivity].
Qed.

(** X4.  [UpdateApplicationApplyManifest] sends nothing when
    [NewHTTPRequest] fails, and returns that error with an empty job URL
    and no warnings; otherwise it sends its request once.  The request
    sent is the one [NewHTTPRequest] built with, as its only Content-Type,
    application/x-yaml, whatever Content-Type it was built with; its other
    headers are untouched.  The job URL, the warnings and the error are
    those of that exchange. *)
Theorem UpdateApplicationApplyManifest_sends_yaml_once
  (PostApplicationActionApplyManifest : string)
  (client : Client any (Request base) remote) (appGUID rawManifest : string)
  (w : World (Request base) remote) :
  match NewHTTPRequest client
          {| optRequestName := PostApplicationActionApplyManifest;
             optURIParams := [("app_guid", appGUID)];
             optQuery := [];
             optBody := Some rawManifest |} with
  | inr e =>
      UpdateApplicationApplyManifest PostApplicationActionApplyManifest
        client appGUID rawManifest w = (("", [], Some e), w)
  | inl req =>
      let sent := set_header req "Content-Type" "application/x-yaml" in
      let out := Connection_Make client sent zero_response (server w) in
      UpdateApplicationApplyManifest PostApplicationActionApplyManifest
        client appGUID rawManifest w =
        ((ResourceLocationURL (fst (fst out)),
          ResponseWarnings (fst (fst out)),
          snd (fst out)),
         {| exchanges := exchanges w ++ [sent]; server := snd out |}) /\
      Header_of sent "Content-Type" = ["application/x-yaml"] /\
      (forall k, k <> "Content-Type" -> Header_of sent k = Header_of req k) /\
      base_of sent = base_of req
  end.
Proof.
  unfold UpdateApplicationApplyManifest.
  destruct (NewHTTPRequest client _) as [req|e]; [|reflexivity].
  cbv zeta. split; [|split; [|split]].
  - rewrite Make_spec.
    destruct (Connection_Make client
                (set_header req "Content-Type" "application/x-yaml")
                zero_response (server w)) as [[response err] far].
    reflexivity.
  - apply Header_Set_get.
  - intros k Hk. apply Header_Set_other. exact Hk.
  - reflexivity.
Qed.

(** X5.  [UpdateSpaceApplyManifest] hands the caller's queries to
    [NewHTTPRequest] unchanged.  When that fails it returns the error with
    an empty job URL and sends nothing; otherwise it sends the request,
    with Content-Type application/x-yaml, exactly once. *)
Theorem UpdateSpaceApplyManifest_sends_at_most_once
  (PostSpaceActionApplyManifestRequest : string)
  (client : Client any (Request base) remote) (spaceGUID rawManifest : string)
  (query : list Query) (w : World (Request base) remote) :
  match NewHTTPRequest client
          {| optRequestName := PostSpaceActionApplyManifestRequest;
             optURIParams := [("space_guid", spaceGUID)];
             optQuery := query;
             optBody := Some rawManifest |} with
  | inr e =>
      UpdateSpaceApplyManifest PostSpaceActionApplyManifestRequest client
        spaceGUID rawManifest query w = (("", [], Some e), w)
  | inl req =>
      let sent := set_header req "Content-Type" "application/x-yaml" in
      let out := Connection_Make client sent zero_response (server w) in
      UpdateSpaceApplyManifest PostSpaceActionApplyManifestRequest client
        spaceGUID rawManifest query w =
        ((ResourceLocationURL (fst (fst out)),
          ResponseWarnings (fst (fst out)),
          snd (fst out)),
         {| exchanges := exchanges w ++ [sent]; server := snd out |})
  end.
Proof.
  unfold UpdateSpaceApplyManifest.
  destruct (NewHTTPRequest client _) as [req|e]; cbv beta iota;
    [|reflexivity].
  rewrite Make_spec.
  destruct (Connection_Make client _ zero_response (server w))
    as [[response err] far].
  reflexivity.
Qed.

(** X6.  [DeleteIsolationSegmentOrganization] and
    [DeleteServiceInstanceRelationshipsSharedSpace] go through
    [MakeRequest]: once the request is built it is sent twice, and the
    warnings and the error returned are those of the second exchange. *)
Theorem relationship_deletions_send_twice
  (IsolationSegmentRequest SharedSpaceRequest : string)
  (client : Client any (Request base) remote) (guid1 guid2 : string)
  (w : World (Request base) remote) (req : Request base) :
  let second :=
    Connection_Make client req zero_response
      (snd (Connection_Make client req zero_response (server w))) in
  (NewHTTPRequest client
     {| optRequestName := IsolationSegmentRequest;
        optURIParams := [("isolation_segment_guid", guid1);
                         ("organization_guid", guid2)];
        optQuery := [];
        optBody := None |} = inl req ->
   DeleteIsolationSegmentOrganization json_Marshal IsolationSegmentRequest
     client guid1 guid2 w =
     ((ResponseWarnings (fst (fst second)), snd (fst second)),
      {| exchanges := exchanges w ++ [req; req]; server := snd second |})) /\
  (NewHTTPRequest client
     {| optRequestName := SharedSpaceRequest;
        optURIParams := [("service_instance_guid", guid1);
                         ("space_guid", guid2)];
        optQuery := [];
        optBody := None |} = inl req ->
   DeleteServiceInstanceRelationshipsSharedSpace json_Marshal SharedSpaceRequest
     client guid1 guid2 w =
     ((ResponseWarnings (fst (fst second)), snd (fst second)),
      {| exchanges := exchanges w ++ [req; req]; server := snd second |})).
Proof.
  intros second. split; intros Hn.
  - unfold DeleteIsolationSegmentOrganization, MakeRequest.
    cbn [marshal_body RequestBody]. unfold options_of.
    cbn [RequestName URIParams Queries]. rewrite Hn.
    rewrite Make_spec. unfold GetSingleResponse. rewrite Make_spec.
    cbn [exchanges server]. change (new_response _) with (@zero_response any).
    fold second. destruct second as [[response err] far]. cbn [fst snd].
    rewrite <- app_assoc. reflexivity.
  - unfold DeleteServiceInstanceRelationshipsSharedSpace, MakeRequest.
    cbn [marshal_body RequestBody]. unfold options_of.
    cbn [RequestName URIParams Queries]. rewrite Hn.
    rewrite Make_spec. unfold GetSingleResponse. rewrite Make_spec.
    cbn [exchanges server]. change (new_response _) with (@zero_response any).
    fold second. destruct second as [[response err] far]. cbn [fst snd].
    rewrite <- app_assoc. reflexivity.
Qed.

End Ccv3Coverage.

Section Ccv3CoverageExamples.

Import Requester Ccv3.

Lemma DeleteApplication_sends_twice_witness :
  fst (DeleteApplication (fun s : string => inl s) "DeleteApplication"
         sample_client "some-app-guid" sample_world)
    = ("/v3/jobs/some-job", ["second-warning"], None) /\
  List.length
    (exchanges (snd (DeleteApplication (fun s : string => inl s)
                       "DeleteApplication" sample_client "some-app-guid"
                       sample_world))) = 2%nat.
Proof.
  rewrite (DeleteApplication_sends_twice (fun s : string => inl s)
             "DeleteApplication" sample_client "some-app-guid" sample_world
             {| base_of :=
                  {| optRequestName := "DeleteApplication";
                     optURIParams := [("app_guid", "some-app-guid")];
                     optQuery := [];
                     optBody := None |};
                Header_of := json_header |} eq_refl).
  split; reflexivity.
Defined.

Lemma UpdateApplicationApplyManifest_sends_yaml_once_witness :
  List.length
    (exchanges (snd (UpdateApplicationApplyManifest "ApplyManifest"
                       sample_client "some-app-guid" "applications: []"
                       sample_world))) = 1%nat /\
  json_header "Content-Type" = ["application/json"] /\
  map (fun r => Header_of r "Content-Type")
    (exchanges (snd (UpdateApplicationApplyManifest "ApplyManifest"
                       sample_client "some-app-guid" "applications: []"
                       sample_world))) = [["application/x-yaml"]].
Proof.
  rewrite (proj1 (UpdateApplicationApplyManifest_sends_yaml_once
             "ApplyManifest" sample_client "some-app-guid" "applications: []"
             sample_world)).
  repeat split.
Defined.

Lemma relationship_deletions_send_twice_witness :
  DeleteIsolationSegmentOrganization (fun s : string => inl s)
    "DeleteIsolationSegmentRelationshipOrganization" sample_client
    "some-iso-guid" "some-org-guid" sample_world
  = ((["second-warning"], None),
     {| exchanges :=
          [ {| base_of :=
                 {| optRequestName := "DeleteIsolationSegmentRelationshipOrganization";
                    optURIParams := [("isolation_segment_guid", "some-iso-guid");
                                     ("organization_guid", "some-org-guid")];
                    optQuery := [];
                    optBody := None |};
               Header_of := json_header |};
            {| base_of :=
                 {| optRequestName := "DeleteIsolationSegmentRelationshipOrganization";
                    optURIParams := [("isolation_segment_guid", "some-iso-guid");
                                     ("organization_guid", "some-org-guid")];
                    optQuery := [];
                    optBody := None |};
               Header_of := json_header |} ];
        server := 2%nat |}).
Proof.
  exact (proj1 (relationship_deletions_send_twice (fun s : string => inl s)
                  "DeleteIsolationSegmentRelationshipOrganization"
                  "unused" sample_client "some-iso-guid" "some-org-guid"
                  sample_world
                  {| base_of :=
                       {| optRequestName := "DeleteIsolationSegmentRelationshipOrganization";
                          optURIParams := [("isolation_segment_guid", "some-iso-guid");
                                           ("organization_guid", "some-org-guid")];
                          optQuery := [];
                          optBody := None |};
                     Header_of := json_header |}) eq_refl).
Defined.

End Ccv3CoverageExamples.

(** ** Relationship: what marshalling writes and what unmarshalling accepts *)

Section RelationshipCoverage.

Import Relationship JsonKind.

(** X7.  [MarshalJSON] never fails and always writes an object with the
    single member [data]; that member is [null] exactly when the GUID is
    empty. *)
Theorem MarshalJSON_null_iff_empty (r : Relationship) :
  exists d,
    MarshalJSON r = inl (Json.Object [("data", d)]) /\
    (d = Json.Null <-> GUID r = "").
Proof.
  unfold MarshalJSON. destruct (String.eqb_spec (GUID r) "") as [He|Hne].
  - exists Json.Null. split; [reflexivity|]. split; auto.
  - eexists. split; [reflexivity|]. split; [discriminate|contradiction].
Qed.

Lemma into_field_skip {A : Type} (name : string)
  (into : Json.value -> A -> A + error) (members : list (string * Json.value)) :
  (forall k v, In (k, v) members -> Json.key_matches name k = false) ->
  forall cur, Json.into_field name into members cur = inl cur.
Proof.
  induction members as [|[k v] rest IH]; intros Hno cur; [reflexivity|].
  cbn [Json.into_field]. rewrite (Hno k v (or_introl eq_refl)).
  apply IH. intros k' v' Hin. apply (Hno k' v'). right. exact Hin.
Qed.

Lemma into_field_app {A : Type} (name : string)
  (into : Json.value -> A -> A + error) (pre rest : list (string * Json.value)) :
  (forall k v, In (k, v) pre -> Json.key_matches name k = false) ->
  forall cur,
    Json.into_field name into (pre ++ rest) cur
      = Json.into_field name into rest cur.
Proof.
  induction pre as [|[k v] pre IH]; intros Hno cur; [reflexivity|].
  cbn [app Json.into_field]. rewrite (Hno k v (or_introl eq_refl)).
  apply IH. intros k' v' Hin. apply (Hno k' v'). right. exact Hin.
Qed.

(** X8.  A document without a [data] member, [{}] and [null] among them,
    unmarshals without error to the empty GUID, whatever the receiver held
    before. *)
Theorem UnmarshalJSON_without_data_clears
  (r : Relationship) (members : list (string * Json.value)) :
  (forall k v, In (k, v) members -> Json.key_matches "data" k = false) ->
  UnmarshalJSON r (Json.Object members) = ({| GUID := "" |}, None) /\
  UnmarshalJSON r Json.Null = ({| GUID := "" |}, None).
Proof.
  intros Hno. split; [|reflexivity].
  unfold UnmarshalJSON, DecodeJSON. cbn [Json.into_struct].
  rewrite into_field_skip by exact Hno. reflexivity.
Qed.

Lemma UnmarshalJSON_without_data_clears_witness :
  UnmarshalJSON {| GUID := "stale-guid" |}
    (Json.Object [("links", Json.Object []); ("guid", Json.Str "elsewhere")])
    = ({| GUID := "" |}, None).
Proof.
  refine (proj1 (UnmarshalJSON_without_data_clears {| GUID := "stale-guid" |}
                   [("links", Json.Object []); ("guid", Json.Str "elsewhere")]
                   _)).
  intros k v [H|[H|[]]]; injection H as <- _; reflexivity.
Defined.

(** X9.  Members other than [data] play no part: around one [data] member
    any members whose keys differ from "data" in more than the case of
    letters may stand, before and after, and the outcome is that of the
    [data] member alone. *)
Theorem UnmarshalJSON_ignores_other_members
  (r : Relationship) (pre post : list (string * Json.value)) (v : Json.value) :
  (forall k x, In (k, x) (pre ++ post) -> Json.key_matches "data" k = false) ->
  UnmarshalJSON r (Json.Object (pre ++ ("data", v) :: post))
    = UnmarshalJSON r (Json.Object [("data", v)]).
Proof.
  intros Hno. unfold UnmarshalJSON, DecodeJSON. cbn [Json.into_struct].
  rewrite into_field_app
    by (intros k x Hin; apply (Hno k x); apply in_or_app; left; exact Hin).
  cbn [Json.into_field].
  destruct (Json.key_matches "data" "data"); [|
    rewrite into_field_skip
      by (intros k x Hin; apply (Hno k x); apply in_or_app; right; exact Hin);
    reflexivity].
  destruct (Json.into_struct "guid" Json.into_string v "") as [g|e];
    [|reflexivity].
  rewrite into_field_skip
    by (intros k x Hin; apply (Hno k x); apply in_or_app; right; exact Hin).
  reflexivity.
Qed.

Lemma UnmarshalJSON_ignores_other_members_witness :
  UnmarshalJSON {| GUID := "" |}
    (Json.Object [("links", Json.Object []);
                  ("data", Json.Object [("guid", Json.Str "some-guid")]);
                  ("meta", Json.Null)])
    = ({| GUID := "some-guid" |}, None).
Proof.
  refine (eq_trans
            (UnmarshalJSON_ignores_other_members {| GUID := "" |}
               [("links", Json.Object [])] [("meta", Json.Null)]
               (Json.Object [("guid", Json.Str "some-guid")]) _) _).
  - intros k x [H|[H|[]]]; injection H as <- _; reflexivity.
  - reflexivity.
Defined.

(** X10.  A [data] member that is neither an object nor [null], and a
    [guid] member that is neither a string nor [null], are refused with a
    type error, and the receiver keeps the GUID it had. *)
Theorem UnmarshalJSON_type_error_keeps_receiver
  (r : Relationship) (v : Json.value) :
  (not_null_or_object v ->
   UnmarshalJSON r (Json.Object [("data", v)])
     = (r, Some Json.UnmarshalTypeError)) /\
  (not_null_or_string v ->
   UnmarshalJSON r (Json.Object [("data", Json.Object [("guid", v)])])
     = (r, Some Json.UnmarshalTypeError)).
Proof.
  split; intros Hv; destruct v; try contradiction; reflexivity.
Qed.

(** A well-formed rune stays one when the bytes after it are coerced. *)
Lemma rune_size_to_valid (b : ascii) (rest : string) (n : nat) :
  Utf8.rune_size (String b rest) = Some n ->
  Utf8.rune_size (String b (Utf8.to_valid_from (Nat.pred n) rest)) = Some n.
Proof.
  unfold Utf8.rune_size.
  destruct (Utf8.byte_val b <? 128); [intros [= <-]; reflexivity|].
  destruct (Utf8.byte_val b <? 194); [discriminate|].
  destruct (Utf8.byte_val b <? 224).
  { destruct rest as [|b1 r]; [discriminate|].
    destruct (Utf8.second_ok (Utf8.byte_val b) b1) eqn:H1; [|discriminate].
    intros [= <-]. cbn [Nat.pred Utf8.to_valid_from]. rewrite H1. reflexivity. }
  destruct (Utf8.byte_val b <? 240).
  { destruct rest as [|b1 [|b2 r]]; try discriminate.
    destruct (Utf8.second_ok (Utf8.byte_val b) b1 && Utf8.between 128 191 b2)
      eqn:H1; [|discriminate].
    intros [= <-]. cbn [Nat.pred Utf8.to_valid_from]. rewrite H1. reflexivity. }
  destruct (Utf8.byte_val b <? 245); [|discriminate].
  destruct rest as [|b1 [|b2 [|b3 r]]]; try discriminate.
  destruct (Utf8.second_ok (Utf8.byte_val b) b1 && Utf8.between 128 191 b2
            && Utf8.between 128 191 b3) eqn:H1; [|discriminate].
  intros [= <-]. cbn [Nat.pred Utf8.to_valid_from]. rewrite H1. reflexivity.
Qed.

(** What the coercion of encoding/json writes is valid UTF-8. *)
Lemma to_valid_from_valid (s : string) :
  forall skip, Utf8.valid_from skip (Utf8.to_valid_from skip s) = true.
Proof.
  induction s as [|b rest IH]; intros skip; [reflexivity|].
  destruct skip as [|k].
  - cbn [Utf8.to_valid_from].
    destruct (Utf8.rune_size (String b rest)) as [n|] eqn:Hn.
    + cbn [Utf8.valid_from]. rewrite (rune_size_to_valid b rest n Hn).
      apply IH.
    + unfold Utf8.replacement. cbn [String.append].
      change (Utf8.valid_from 0
                (String (ascii_of_nat 239)
                   (String (ascii_of_nat 191)
                      (String (ascii_of_nat 189) (Utf8.to_valid_from 0 rest)))))
        with (Utf8.valid_from 0 (Utf8.to_valid_from 0 rest)).
      apply IH.
  - cbn [Utf8.to_valid_from Utf8.valid_from]. apply IH.
Qed.

(** X11.  The GUID that comes back from a round trip is valid UTF-8, and a
    second round trip returns it unchanged: marshalling and unmarshalling
    settle after one pass, for every Relationship. *)
Theorem round_trip_settles (r0 r : Relationship) :
  Utf8.ValidString (GUID (fst (round_trip r0 r))) = true /\
  round_trip r0 (fst (round_trip r0 r)) = round_trip r0 r.
Proof.
  rewrite !round_trip_coerces. cbn [fst GUID].
  assert (Hv : Utf8.ValidString (Utf8.ToValid (GUID r)) = true)
    by apply to_valid_from_valid.
  split; [exact Hv|].
  rewrite (proj2 (ToValid_fixed_iff _) Hv). reflexivity.
Qed.

Lemma UnmarshalJSON_type_error_keeps_receiver_witness :
  UnmarshalJSON {| GUID := "kept-guid" |}
    (Json.Object [("data", Json.Str "not-an-object")])
    = ({| GUID := "kept-guid" |}, Some Json.UnmarshalTypeError).
Proof.
  exact (proj1 (UnmarshalJSON_type_error_keeps_receiver
                  {| GUID := "kept-guid" |} (Json.Str "not-an-object")) I).
Defined.

End RelationshipCoverage.

(** ** The token refresh scheduler: start, stop and timing *)

Section TokenRefreshCoverage.

Import TokenRefresh RefreshCount.

(** X12.  [ScheduleTokenRefresh] refreshes exactly once itself, and its
    three outcomes go together: it returns a quit channel exactly when it
    returns no error, and exactly then a goroutine has been started. *)
Theorem schedule_starts_loop_iff_no_error
  (actor : Actor) (tickerChan : ticker_chan) :
  let r := ScheduleTokenRefresh actor tickerChan in
  refreshes r = 1%nat /\
  (err r = None <-> quit r = true) /\
  (err r = None <-> background r <> None).
Proof.
  unfold ScheduleTokenRefresh.
  destruct (RefreshAccessToken actor 0) as [s|e].
  - destruct (ParseJWT actor (TrimPrefix s "bearer ")) as [token|e].
    + destruct (Expiration token) as [expiration|]; cbn.
      * repeat split; auto; discriminate.
      * repeat split; auto; try discriminate; intros H; contradiction.
    + cbn. repeat split; auto; try discriminate; intros H; contradiction.
  - cbn. repeat split; auto; try discriminate; intros H; contradiction.
Qed.

(** The instrumented iteration is [step] with a log beside it: the
    goroutine it leaves is the one [step] leaves. *)
Lemma step_logged_step (actor : Actor) (g : goroutine) (ev : event) :
  fst (step_logged actor g ev) = step actor g ev.
Proof. destruct g as [tk n| |e]; [destruct ev|..]; reflexivity. Qed.

Lemma run_logged_cons (actor : Actor) (g : goroutine) (ev : event)
  (evs : list event) :
  run_logged actor g (ev :: evs) =
    (fst (run_logged actor (step actor g ev) evs),
     snd (step_logged actor g ev)
       ++ snd (run_logged actor (step actor g ev) evs)).
Proof.
  cbn [run_logged]. rewrite <- step_logged_step.
  destruct (step_logged actor g ev) as [g1 calls1]. cbn [fst snd].
  destruct (run_logged actor g1 evs) as [g2 calls2]. reflexivity.
Qed.

(** The instrumented loop is [run] with a log beside it. *)
Lemma run_logged_run (actor : Actor) (evs : list event) :
  forall g, fst (run_logged actor g evs) = run actor g evs.
Proof.
  induction evs as [|ev evs IH]; intros g; [reflexivity|].
  rewrite run_logged_cons, run_cons. cbn [fst]. apply IH.
Qed.

Lemma calls_during_cons (actor : Actor) (g : goroutine) (ev : event)
  (evs : list event) :
  calls_during actor g (ev :: evs) =
    snd (step_logged actor g ev) ++ calls_during actor (step actor g ev) evs.
Proof. unfold calls_during. rewrite run_logged_cons. reflexivity. Qed.

Lemma refreshes_during_cons (actor : Actor) (g : goroutine) (ev : event)
  (evs : list event) :
  refreshes_during actor g (ev :: evs) =
    (List.length (snd (step_logged actor g ev))
     + refreshes_during actor (step actor g ev) evs)%nat.
Proof.
  unfold refreshes_during. rewrite calls_during_cons. apply length_app.
Qed.

(** The log holds the consultations of [RefreshAccessToken] and nothing
    else: two actors that answer the logged calls alike drive the
    goroutine alike, and make the same calls. *)
Lemma run_reads_logged_calls_only (actor other : Actor) (evs : list event) :
  forall g,
    (forall j, In j (calls_during actor g evs) ->
       RefreshAccessToken other j = RefreshAccessToken actor j) ->
    run other g evs = run actor g evs /\
    calls_during other g evs = calls_during actor g evs.
Proof.
  induction evs as [|ev evs IH]; intros g Hsame; [split; reflexivity|].
  rewrite !calls_during_cons, !run_cons.
  rewrite calls_during_cons in Hsame.
  assert (Hstep : step other g ev = step actor g ev /\
                  snd (step_logged other g ev) = snd (step_logged actor g ev)).
  { destruct g as [tk n| |e]; [destruct ev|..]; try (split; reflexivity).
    cbn [step step_logged snd]. rewrite (Hsame n); [split; reflexivity|].
    cbn [step_logged snd app]. left. reflexivity. }
  destruct Hstep as [Hs Hl]. rewrite Hs, Hl.
  destruct (IH (step actor g ev)) as [H1 H2].
  { intros j Hj. apply Hsame. apply in_or_app. right. exact Hj. }
  rewrite H1, H2. split; reflexivity.
Qed.

Lemma calls_during_stopped (actor : Actor) (g : goroutine)
  (evs : list event) :
  (forall tk n, g <> Looping tk n) ->
  calls_during actor g evs = [] /\ run actor g evs = g.
Proof.
  intros Hg. induction evs as [|ev evs [IH1 IH2]]; [split; reflexivity|].
  destruct g as [tk n| |e]; [exfalso; exact (Hg tk n eq_refl)| |].
  - rewrite calls_during_cons, run_cons. cbn [step step_logged snd].
    rewrite IH1. split; [reflexivity|exact IH2].
  - rewrite calls_during_cons, run_cons. cbn [step step_logged snd].
    rewrite IH1. split; [reflexivity|exact IH2].
Qed.

Lemma refreshes_during_stopped (actor : Actor) (g : goroutine)
  (evs : list event) :
  (forall tk n, g <> Looping tk n) ->
  refreshes_during actor g evs = 0%nat /\ run actor g evs = g.
Proof.
  intros Hg. destruct (calls_during_stopped actor g evs Hg) as [H1 H2].
  unfold refreshes_during. rewrite H1. split; [reflexivity|exact H2].
Qed.

Lemma step_Quit_stopped (actor : Actor) (g : goroutine) :
  forall tk n, step actor g Quit <> Looping tk n.
Proof. intros tk n. destruct g; discriminate. Qed.

(** X13.  The quit channel stops the scheduler for good: whatever state
    the goroutine is in, once it has received the quit signal it is no
    longer looping, and the events that follow cause no refresh.  Before
    that, it refreshes at most once per tick. *)
Theorem quit_stops_refreshing
  (actor : Actor) (evs1 evs2 : list event) :
  forall g,
    refreshes_during actor g (evs1 ++ Quit :: evs2)
      = refreshes_during actor g evs1 /\
    (forall tk n, run actor g (evs1 ++ Quit :: evs2) <> Looping tk n) /\
    (refreshes_during actor g evs1 <= ticks evs1)%nat.
Proof.
  induction evs1 as [|ev evs1 IH]; intros g.
  - cbn [app ticks]. rewrite refreshes_during_cons, run_cons.
    destruct (refreshes_during_stopped actor (step actor g Quit) evs2
                (step_Quit_stopped actor g)) as [H0 Hrun].
    rewrite H0, Hrun. split; [destruct g; reflexivity|].
    split; [apply step_Quit_stopped|apply Nat.le_0_l].
  - cbn [app]. rewrite !refreshes_during_cons, run_cons.
    destruct (IH (step actor g ev)) as (H1 & H2 & H3).
    rewrite H1. split; [reflexivity|]. split; [exact H2|].
    destruct g, ev; cbn [ticks step_logged snd List.length] in *; lia.
Qed.

(** With every refresh granted, a looping goroutine that receives [k]
    ticks makes the calls numbered [n], ..., [n + k - 1], one per tick. *)
Lemma calls_during_ticks (actor : Actor) (k : nat) :
  forall tk n,
    (forall i, (n <= i < n + k)%nat -> exists s, RefreshAccessToken actor i = inl s) ->
    calls_during actor (Looping tk n) (repeat Tick k) = seq n k /\
    run actor (Looping tk n) (repeat Tick k) = Looping tk (n + k).
Proof.
  induction k as [|k IH]; intros tk n Hok.
  - cbn. rewrite Nat.add_0_r. split; reflexivity.
  - cbn [repeat seq]. rewrite calls_during_cons, run_cons.
    cbn [step step_logged snd].
    destruct (Hok n ltac:(lia)) as [s Hs]. rewrite Hs.
    destruct (IH tk (S n)) as [H1 H2].
    { intros i Hi. apply Hok. lia. }
    rewrite H1, H2. split; [reflexivity|]. f_equal. lia.
Qed.

Lemma calls_during_app (actor : Actor) (evs1 evs2 : list event) :
  forall g,
    calls_during actor g (evs1 ++ evs2)
      = calls_during actor g evs1
        ++ calls_during actor (run actor g evs1) evs2.
Proof.
  induction evs1 as [|ev evs1 IH]; intros g; [reflexivity|].
  cbn [app]. rewrite !calls_during_cons, run_cons, IH.
  apply app_assoc.
Qed.

Lemma run_app (actor : Actor) (evs1 evs2 : list event) (g : goroutine) :
  run actor g (evs1 ++ evs2) = run actor (run actor g evs1) evs2.
Proof. unfold run. apply fold_left_app. Qed.

(** A refusal met while ticks are received panics the goroutine, and
    nothing received afterwards brings it back. *)
Lemma refused_tick_panics (actor : Actor) (e : error) (evs : list event)
  (k : nat) :
  forall tk n j,
    (n <= j < n + k)%nat ->
    (forall i, (n <= i < j)%nat -> exists s, RefreshAccessToken actor i = inl s) ->
    RefreshAccessToken actor j = inr e ->
    run actor (Looping tk n) (repeat Tick k ++ evs) = Panicked e.
Proof.
  induction k as [|k IH]; intros tk n j Hj Hok He; [lia|].
  cbn [repeat app]. rewrite run_cons. cbn [step].
  destruct (Nat.eq_dec n j) as [->|Hne].
  - rewrite He. apply run_Panicked.
  - destruct (Hok n ltac:(lia)) as [s Hs]. rewrite Hs.
    apply (IH tk (S n) j); [lia| |exact He].
    intros i Hi. apply Hok. lia.
Qed.

(** X14.  Of the events its select receives, the goroutine answers each
    tick by one call of [RefreshAccessToken]: when it has already made [n]
    calls and receives [k] ticks and then the quit signal, and the calls
    numbered [n], ..., [n + k - 1] are granted, then these are exactly the
    calls it makes, in this order, [k] of them, whatever arrives after the
    signal, and it has returned.  The calls are those of [step]: the
    instrumented loop ends as [run] does, and an actor that refuses one
    of these calls, the earlier ones granted, panics the goroutine with
    that error. *)
Theorem granted_ticks_refresh_once_each
  (actor : Actor) (tk : ticker) (n k : nat) (evs : list event) :
  (forall i, (n <= i < n + k)%nat ->
     exists s, RefreshAccessToken actor i = inl s) ->
  refreshes_during actor (Looping tk n) (repeat Tick k ++ Quit :: evs) = k /\
  run actor (Looping tk n) (repeat Tick k ++ Quit :: evs) = Returned /\
  calls_during actor (Looping tk n) (repeat Tick k ++ Quit :: evs) = seq n k /\
  fst (run_logged actor (Looping tk n) (repeat Tick k ++ Quit :: evs))
    = run actor (Looping tk n) (repeat Tick k ++ Quit :: evs) /\
  (forall (refusing : Actor) (j : nat) (e : error),
     In j (calls_during actor (Looping tk n) (repeat Tick k ++ Quit :: evs)) ->
     (forall i, (n <= i < j)%nat ->
        exists s, RefreshAccessToken refusing i = inl s) ->
     RefreshAccessToken refusing j = inr e ->
     run refusing (Looping tk n) (repeat Tick k ++ Quit :: evs) = Panicked e).
Proof.
  intros Hok. destruct (calls_during_ticks actor k tk n Hok) as [Hc Hr].
  assert (Hcalls :
    calls_during actor (Looping tk n) (repeat Tick k ++ Quit :: evs) = seq n k).
  { rewrite calls_during_app, Hc, Hr, calls_during_cons.
    cbn [step step_logged snd app].
    destruct (calls_during_stopped actor Returned evs) as [H0 _];
      [discriminate|].
    rewrite H0. apply app_nil_r. }
  split; [unfold refreshes_during; rewrite Hcalls; apply length_seq|].
  split.
  { rewrite run_app, Hr, run_cons. cbn [step]. apply run_Returned. }
  split; [exact Hcalls|].
  split; [apply run_logged_run|].
  intros refusing j e Hj Hgranted Hrefused.
  rewrite Hcalls in Hj. apply in_seq in Hj.
  apply (refused_tick_panics refusing e (Quit :: evs) k tk n j Hj Hgranted
           Hrefused).
Qed.

Lemma granted_ticks_refresh_once_each_witness :
  refreshes_during sample_actor (Looping SuppliedTicker 1) [Tick; Quit; Tick]
    = 1%nat /\
  run sample_actor (Looping SuppliedTicker 1) [Tick; Quit; Tick] = Returned /\
  calls_during sample_actor (Looping SuppliedTicker 1) [Tick; Quit; Tick]
    = [1%nat].
Proof.
  destruct (granted_ticks_refresh_once_each sample_actor SuppliedTicker 1 1
              [Tick]) as (H1 & H2 & H3 & _).
  - intros i Hi. assert (i = 1%nat) as -> by lia.
    exists "bearer t2900". reflexivity.
  - split; [exact H1|]. split; [exact H2|exact H3].
Defined.

(** X15.  A token that expired at most [max_int / 9] ns (about 32.5
    years) ago, or expires within a nanosecond, is accepted:
    [ScheduleTokenRefresh] returns the quit channel and no error.  With a
    nil [tickerChan] the goroutine then panics in [time.NewTicker],
    because the computed delay is not positive; with a supplied tick
    channel it loops, the delay playing no part. *)
Theorem expired_token_panics_after_success
  (actor : Actor) (s : string) (token : JWT) (expiration : Time) :
  RefreshAccessToken actor 0 = inl s ->
  ParseJWT actor (TrimPrefix s "bearer ") = inl token ->
  Expiration token = Some expiration ->
  - (Int64.max_int / 9) <= expiration - Now actor <= 1 ->
  ScheduleTokenRefresh actor NilChan =
    {| quit := true; err := None;
       background := Some (Panicked NewTicker_panic);
       refreshes := 1 |} /\
  ScheduleTokenRefresh actor SuppliedChan =
    {| quit := true; err := None;
       background := Some (Looping SuppliedTicker 1);
       refreshes := 1 |}.
Proof.
  intros Hr Hp He HE.
  assert (Hmax : Int64.max_int / 9 = 1024819115206086200) by reflexivity.
  rewrite Hmax in HE.
  unfold ScheduleTokenRefresh. rewrite Hr, Hp, He.
  split; [|reflexivity].
  unfold Until, Sub.
  rewrite saturate_small
    by (unfold Int64.in_range, Int64.min_int, Int64.max_int; lia).
  set (E := expiration - Now actor) in *.
  assert (Hd : timeToRefresh E <= 0).
  { unfold timeToRefresh, Int64.quot, Int64.mul.
    rewrite (wrap_small (E * 9))
      by (unfold Int64.in_range, Int64.min_int, Int64.max_int; lia).
    assert (Hq : Z.quot (E * 9) 10 <= 0 /\
                 -9223372036854775808 <= Z.quot (E * 9) 10).
    { destruct (Z.le_gt_cases 0 E) as [Hpos|Hneg].
      - assert (E * 9 < 10) by lia.
        rewrite Z.quot_small by lia. lia.
      - pose proof (Z.quot_opp_l (- (E * 9)) 10 ltac:(lia)) as Ho.
        rewrite Z.opp_involutive in Ho. rewrite Ho.
        rewrite Z.quot_div_nonneg by lia.
        assert (0 <= - (E * 9) / 10) by (apply Z.div_pos; lia).
        assert (- (E * 9) / 10 <= - (E * 9))
          by (apply Z.div_le_upper_bound; lia).
        lia. }
    rewrite wrap_small
      by (unfold Int64.in_range, Int64.min_int, Int64.max_int; lia).
    lia. }
  unfold spawn. destruct (Z.leb_spec (timeToRefresh E) 0); [reflexivity|lia].
Qed.

Lemma expired_token_panics_after_success_witness :
  ScheduleTokenRefresh (actor_expiring_in (-5)) NilChan =
    {| quit := true; err := None;
       background := Some (Panicked NewTicker_panic);
       refreshes := 1 |}.
Proof.
  refine (proj1 (expired_token_panics_after_success (actor_expiring_in (-5))
                   "bearer tok" {| Expiration := Some (-5) |} (-5)
                   eq_refl eq_refl eq_refl _)).
  vm_compute. split; discriminate.
Defined.

(** X16.  Below the overflow threshold the delay grows with the remaining
    time, is positive, and leaves a margin of at least a tenth of the
    remaining time before the expiry. *)
Theorem timeToRefresh_margin (E1 E2 : Duration) :
  2 <= E1 <= E2 -> E2 <= Int64.max_int / 9 ->
  0 < timeToRefresh E1 <= timeToRefresh E2 /\
  timeToRefresh E2 < E2 /\
  E2 <= 10 * (E2 - timeToRefresh E2).
Proof.
  intros H12 H2.
  assert (Hmax : Int64.max_int / 9 = 1024819115206086200) by reflexivity.
  rewrite !timeToRefresh_exact by (rewrite Hmax in *; lia).
  rewrite Hmax in H2.
  pose proof (Z.div_mod (E1 * 9) 10 ltac:(lia)) as D1.
  pose proof (Z.mod_pos_bound (E1 * 9) 10 ltac:(lia)) as M1.
  pose proof (Z.div_mod (E2 * 9) 10 ltac:(lia)) as D2.
  pose proof (Z.mod_pos_bound (E2 * 9) 10 ltac:(lia)) as M2.
  assert (Hmono : E1 * 9 / 10 <= E2 * 9 / 10)
    by (apply Z.div_le_mono; lia).
  lia.
Qed.

Lemma timeToRefresh_margin_witness :
  0 < timeToRefresh 2 <= timeToRefresh (1000 * Second) /\
  timeToRefresh (1000 * Second) < 1000 * Second /\
  1000 * Second <= 10 * (1000 * Second - timeToRefresh (1000 * Second)).
Proof.
  apply (timeToRefresh_margin 2 (1000 * Second)).
  - vm_compute. split; discriminate.
  - vm_compute. discriminate.
Defined.

(** X24.  For a token with between 2 ns and [max_int / 9] ns (about 32.5
    years) left, a scheduler that owns its ticker ticks every
    [9 * E / 10] nanoseconds: 90% of the remaining time, rounded down to
    the nanosecond. *)
Theorem first_refresh_at_ninety_percent
  (actor : Actor) (s : string) (token : JWT) (expiration : Time) :
  RefreshAccessToken actor 0 = inl s ->
  ParseJWT actor (TrimPrefix s "bearer ") = inl token ->
  Expiration token = Some expiration ->
  2 <= expiration - Now actor <= Int64.max_int / 9 ->
  let E := expiration - Now actor in
  background (ScheduleTokenRefresh actor NilChan)
    = Some (Looping (OwnTicker (E * 9 / 10)) 1) /\
  0 <= 9 * E - 10 * (E * 9 / 10) < 10.
Proof.
  intros Hr Hp He HE E. fold E in HE.
  assert (Hmax : Int64.max_int / 9 = 1024819115206086200) by reflexivity.
  rewrite Hmax in HE.
  unfold ScheduleTokenRefresh. rewrite Hr, Hp, He. cbn [background].
  unfold Until, Sub. fold E.
  rewrite saturate_small
    by (unfold Int64.in_range, Int64.min_int, Int64.max_int; lia).
  rewrite timeToRefresh_exact by (rewrite Hmax; lia).
  assert (Hpos : 0 < E * 9 / 10).
  { apply Z.div_str_pos. lia. }
  unfold spawn. destruct (Z.leb_spec (E * 9 / 10) 0); [lia|].
  split; [reflexivity|].
  pose proof (Z.div_mod (E * 9) 10 ltac:(lia)) as Hdm.
  pose proof (Z.mod_pos_bound (E * 9) 10 ltac:(lia)) as Hmb.
  lia.
Qed.

Lemma first_refresh_at_ninety_percent_witness :
  background (ScheduleTokenRefresh sample_actor NilChan)
    = Some (Looping (OwnTicker (900 * Second)) 1).
Proof.
  refine (proj1 (first_refresh_at_ninety_percent sample_actor "bearer t1000"
                   {| Expiration := Some (1000 * Second) |} (1000 * Second)
                   eq_refl eq_refl eq_refl _)).
  vm_compute. split; discriminate.
Defined.

End TokenRefreshCoverage.

Section TrimPrefixCoverage.

Import TokenRefresh RefreshCount.

Lemma strip_prefix_Some (p : string) :
  forall s r, strip_prefix p s = Some r <-> s = (p ++ r)%string.
Proof.
  induction p as [|a p IH]; intros s r.
  - cbn. split; [intros [= ->]; reflexivity|intros ->; reflexivity].
  - destruct s as [|b s]; cbn [strip_prefix String.append].
    + split; discriminate.
    + destruct (Ascii.eqb_spec a b) as [->|Hne].
      * rewrite IH. split; [intros ->; reflexivity|intros [= ->]; reflexivity].
      * split; [discriminate|]. intros [= Hab _]. congruence.
Qed.

(** X17.  [strings.TrimPrefix]: a string that starts with the prefix loses
    it, once; any other string is returned as it is. *)
Theorem TrimPrefix_spec (s prefix : string) :
  (exists r, s = (prefix ++ r)%string /\ TrimPrefix s prefix = r) \/
  ((forall r, s <> (prefix ++ r)%string) /\ TrimPrefix s prefix = s).
Proof.
  unfold TrimPrefix. destruct (strip_prefix prefix s) as [r|] eqn:H.
  - left. exists r. split; [apply strip_prefix_Some; exact H|reflexivity].
  - right. split; [|reflexivity]. intros r Hr.
    apply strip_prefix_Some in Hr. congruence.
Qed.

(** X18.  The scheduler treats a token the same with and without the
    "bearer " prefix: two platforms whose first refresh returns
    "bearer " followed by [t], and [t] itself, [t] not starting with
    "bearer ", lead to the same outcome. *)
Theorem bearer_prefix_is_optional
  (actor1 actor2 : Actor) (tickerChan : ticker_chan) (t : string) :
  RefreshAccessToken actor1 0 = inl ("bearer " ++ t)%string ->
  RefreshAccessToken actor2 0 = inl t ->
  (forall r, t <> ("bearer " ++ r)%string) ->
  ParseJWT actor1 = ParseJWT actor2 ->
  Now actor1 = Now actor2 ->
  ScheduleTokenRefresh actor1 tickerChan = ScheduleTokenRefresh actor2 tickerChan.
Proof.
  intros H1 H2 Hno Hp Hn. unfold ScheduleTokenRefresh.
  rewrite H1, H2, Hp, Hn.
  assert (E1 : TrimPrefix ("bearer " ++ t) "bearer " = t).
  { unfold TrimPrefix.
    rewrite (proj2 (strip_prefix_Some "bearer " ("bearer " ++ t) t) eq_refl).
    reflexivity. }
  assert (E2 : TrimPrefix t "bearer " = t).
  { unfold TrimPrefix. destruct (strip_prefix "bearer " t) as [r|] eqn:H;
      [|reflexivity].
    apply strip_prefix_Some in H. exfalso. exact (Hno r H). }
  rewrite E1, E2. reflexivity.
Qed.

Lemma bearer_prefix_is_optional_witness :
  ScheduleTokenRefresh (prefixed_actor (1000 * Second)) NilChan
    = ScheduleTokenRefresh (bare_actor (1000 * Second)) NilChan.
Proof.
  apply (bearer_prefix_is_optional (prefixed_actor (1000 * Second))
           (bare_actor (1000 * Second)) NilChan "tok");
    try reflexivity.
  intros r H. discriminate H.
Defined.

End TrimPrefixCoverage.

(** ** Recent and streaming logs of an application *)

Section V2LogsCoverage.

Import Requester V2Logs.

Context {world application client : Type}.
Context {message_chan error_chan cancel_func : Type}.
Context {LogMessage text kind time source_type source_instance : Type}.

Variable GUID : application -> string.
Variable GetApplicationByNameAndSpace :
  string -> string -> world -> (application * Warnings * option error) * world.
Variable sharedaction_GetRecentLogs :
  string -> client -> world -> (list LogMessage * option error) * world.
Variable sharedaction_GetStreamingLogs :
  string -> client -> world -> (message_chan * error_chan * cancel_func) * world.
Variable Message : LogMessage -> text.
Variable Type_ : LogMessage -> kind.
Variable Timestamp : LogMessage -> time.
Variable SourceType : LogMessage -> source_type.
Variable SourceInstance : LogMessage -> source_instance.
Variable NewLogMessage :
  text -> kind -> time -> source_type -> source_instance -> LogMessage.

Lemma append_all_map (msgs : list LogMessage) :
  forall acc,
    append_all Message Type_ Timestamp SourceType SourceInstance NewLogMessage
      acc msgs =
    acc ++ map (rebuilt Message Type_ Timestamp SourceType SourceInstance
                  NewLogMessage) msgs.
Proof.
  induction msgs as [|m rest IH]; intros acc.
  - cbn. rewrite app_nil_r. reflexivity.
  - cbn [append_all map]. rewrite IH. rewrite <- app_assoc. reflexivity.
Qed.


(** X20.  [GetStreamingLogsForApplicationByNameAndSpace] starts a session
    exactly when the application lookup succeeds.  When the lookup fails
    both channels are nil, the stop function is the one that does nothing,
    and the platform is left as the lookup left it; in both cases the
    warnings of the lookup are returned. *)
Theorem streaming_logs_outcomes
  (appName spaceGUID : string) (c : client) (w : world) :
  let lookup := GetApplicationByNameAndSpace appName spaceGUID w in
  let r :=
    GetStreamingLogsForApplicationByNameAndSpace GUID
      GetApplicationByNameAndSpace sharedaction_GetStreamingLogs
      appName spaceGUID c w in
  allWarnings (fst r) = snd (fst (fst lookup)) /\
  streaming_err (fst r) = snd (fst lookup) /\
  (streaming_err (fst r) <> None ->
   messages (fst r) = None /\ logErrs (fst r) = None /\
   stopStreaming (fst r) = NoOp /\ snd r = snd lookup) /\
  (streaming_err (fst r) = None ->
   let session :=
     sharedaction_GetStreamingLogs (GUID (fst (fst (fst lookup)))) c
       (snd lookup) in
   messages (fst r) = Some (fst (fst (fst session))) /\
   logErrs (fst r) = Some (snd (fst (fst session))) /\
   stopStreaming (fst r) = Cancel (snd (fst session)) /\
   snd r = snd session).
Proof.
  intros lookup r. subst r lookup.
  unfold GetStreamingLogsForApplicationByNameAndSpace, GetStreamingLogs.
  destruct (GetApplicationByNameAndSpace appName spaceGUID w)
    as [[[found warnings] [e|]] w1]; cbn [fst snd].
  - split; [reflexivity|]. split; [reflexivity|].
    split; [|discriminate]. intros _. repeat split.
  - destruct (sharedaction_GetStreamingLogs (GUID found) c w1)
      as [[[ms es] stop] w2]; cbn.
    split; [reflexivity|]. split; [reflexivity|].
    split; [intros Hne; exfalso; apply Hne; reflexivity|].
    intros _. repeat split.
Qed.

End V2LogsCoverage.

(** ** The fake log-cache, base64 and decimal strings *)

Section MockCoverage.

Import Mock MockRun.

Lemma handler_seek (st : bool) :
  snd (handler st seekRawQuery) = false /\
  fst (handler false seekRawQuery) = Wrote (seek_body latestEnvelopeTimestamp).
Proof.
  unfold handler, seekRawQuery. rewrite String.eqb_refl.
  destruct st; split; reflexivity.
Qed.

Lemma handler_keeps_false (q : string) : snd (handler false q) = false.
Proof.
  unfold handler.
  repeat match goal with
         | |- context [String.eqb q ?x] => destruct (String.eqb q x)
         end; reflexivity.
Qed.

Lemma handle_all_cons (st : bool) (q : string) (qs : list string) :
  snd (handle_all st (q :: qs)) = snd (handle_all (snd (handler st q)) qs).
Proof.
  cbn [handle_all]. destruct (handler st q) as [r st1]. cbn [snd].
  destruct (handle_all st1 qs) as [rs st2]. reflexivity.
Qed.

Lemma handle_all_keeps_false (qs : list string) :
  snd (handle_all false qs) = false.
Proof.
  induction qs as [|q qs IH]; [reflexivity|].
  rewrite handle_all_cons, handler_keeps_false. exact IH.
Qed.

(** X21.  The handler answers the seek query with the empty document at
    most once: after any requests among which the seek query occurs,
    [returnEmptyEnvelope] is false, it stays false whatever is requested
    next, and the seek query is answered with the envelope stamped
    [latestEnvelopeTimestamp]. *)
Theorem handler_is_empty_at_most_once
  (returnEmptyEnvelope : bool) (seen later : list string) :
  In seekRawQuery seen ->
  snd (handle_all returnEmptyEnvelope seen) = false /\
  snd (handle_all returnEmptyEnvelope (seen ++ later)) = false /\
  fst (handler (snd (handle_all returnEmptyEnvelope (seen ++ later)))
         seekRawQuery)
    = Wrote (seek_body latestEnvelopeTimestamp).
Proof.
  intros Hin.
  assert (Hseen : forall st, snd (handle_all st seen) = false).
  { induction seen as [|q qs IH]; intros st; [contradiction|].
    rewrite handle_all_cons. destruct Hin as [->|Hin].
    - rewrite (proj1 (handler_seek st)). apply handle_all_keeps_false.
    - apply IH. exact Hin. }
  assert (Happ : forall l st,
            snd (handle_all st (l ++ later))
              = snd (handle_all (snd (handle_all st l)) later)).
  { induction l as [|q qs IH]; intros st; [reflexivity|].
    cbn [app]. rewrite !handle_all_cons. apply IH. }
  split; [apply Hseen|].
  rewrite Happ, Hseen, handle_all_keeps_false.
  split; [reflexivity|]. apply handler_seek. exact true.
Qed.

Lemma handler_is_empty_at_most_once_witness :
  fst (handle_all true [seekRawQuery; seekRawQuery])
    = [Wrote empty_body; Wrote (seek_body latestEnvelopeTimestamp)] /\
  snd (handle_all true ([seekRawQuery] ++ [seekRawQuery])) = false.
Proof.
  split; [vm_compute; reflexivity|].
  apply (handler_is_empty_at_most_once true [seekRawQuery] [seekRawQuery]).
  left. reflexivity.
Defined.

End MockCoverage.

Section EncodingCoverage.

Lemma EncodeToString_length (s : string) :
  String.length (Base64.EncodeToString s)
    = (4 * ((String.length s + 2) / 3))%nat.
Proof.
  induction s as [|a|a b|a b c r IH] using string_ind3; try reflexivity.
  cbn [Base64.EncodeToString]. unfold Base64.enc3.
  cbn [String.append String.length]. rewrite IH.
  replace (S (S (S (String.length r))) + 2)%nat
    with ((String.length r + 2) + 1 * 3)%nat by lia.
  rewrite Nat.div_add by discriminate. lia.
Qed.

(** X22.  [StdEncoding.EncodeToString] writes four characters for every
    three bytes, the last group padded; it loses nothing: the text decodes
    to the bytes encoded, and different byte strings have different
    texts. *)
Theorem EncodeToString_faithful (s t : string) :
  String.length (Base64.EncodeToString s)
    = (4 * ((String.length s + 2) / 3))%nat /\
  Base64.DecodeString (Base64.EncodeToString s) = Some s /\
  (Base64.EncodeToString s = Base64.EncodeToString t -> s = t).
Proof.
  split; [apply EncodeToString_length|].
  split; [apply DecodeString_EncodeToString|].
  intros H.
  pose proof (DecodeString_EncodeToString s) as Hs.
  rewrite H, DecodeString_EncodeToString in Hs. congruence.
Qed.

(** X23.  [strconv.FormatInt] in base 10 writes a non-empty text that
    reads back as the number formatted, so different numbers have
    different texts. *)
Theorem FormatInt_faithful (a b : Z) :
  Strconv.ParseInt (Strconv.FormatInt a) = Some a /\
  Strconv.FormatInt a <> "" /\
  (Strconv.FormatInt a = Strconv.FormatInt b -> a = b).
Proof.
  split; [apply ParseInt_FormatInt|]. split.
  - intros H. pose proof (ParseInt_FormatInt a) as Hp. rewrite H in Hp.
    discriminate.
  - intros H. pose proof (ParseInt_FormatInt a) as Hp.
    rewrite H, ParseInt_FormatInt in Hp. congruence.
Qed.

End EncodingCoverage.

Section V2LogsExamples.

Import Requester V2Logs.


Lemma streaming_logs_outcomes_witness :
  stopStreaming
    (fst (GetStreamingLogsForApplicationByNameAndSpace
            (fun guid : string => guid) lookup_dora stream_of_dora
            "nora" "some-space" tt O))
  = NoOp.
Proof.
  refine (proj1 (proj2 (proj2
            (proj1 (proj2 (proj2
               (streaming_logs_outcomes (fun guid : string => guid)
                  lookup_dora stream_of_dora "nora" "some-space" tt O))) _)))).
  cbv. discriminate.
Defined.

End V2LogsExamples.
